(** * Verification of github.com/meblum/jwt (jwt.go)

    A shallow embedding of the token verifier and of its public-key cache,
    taken from the current revision of [jwt.go] (the one whose [keyCache]
    carries a [sync.RWMutex]), followed by the properties proved about it.

    Conventions of the embedding:
    - a Go [string] is a [string] (a sequence of bytes), a [[]byte] is a
      [list Z] of values in [0, 256);
    - a Go result [(x, err)] is a pair of options: [None] is [nil];
    - [time.Time] is an instant in nanoseconds relative to the Unix epoch;
    - the two sources of effects, [time.Now] and the injected [keyFetcher],
      are oracles indexed by how often they were called so far; the number
      of calls is part of the state, next to the cache the verifier points to;
    - [encoding/json], [crypto/rsa] and [crypto/sha256] are not part of the
      package: they are fields of the record [Externals] and every theorem
      holds for all of them;
    - one call is modelled as it runs on its own: [mu] only orders concurrent
      calls, so locking and unlocking leave no trace in the state. *)

From Stdlib Require Import ZArith Lia List Ascii String.
From stdpp Require Import gmap strings list fin_maps.

Local Open Scope string_scope.
Local Open Scope Z_scope.

(** ** Go library functions used by the package *)

(** [strings.Split(s, ".")], the only way the package calls [Split]: the
    pieces between the separators, one more than there are separators. *)
Fixpoint split_sep (sep : ascii) (s : string) : list string :=
  match s with
  | EmptyString => [EmptyString]
  | String c rest =>
      if Ascii.eqb c sep then EmptyString :: split_sep sep rest
      else match split_sep sep rest with
           | p :: ps => String c p :: ps
           | [] => [String c EmptyString]
           end
  end.

Definition dot : ascii := "."%char.

Definition strings_Split_dot (s : string) : list string := split_sep dot s.

(** [strings.Join([a, b], ".")]. *)
Definition strings_Join_dot (a b : string) : string := a +:+ String dot b.

(** *** encoding/base64, [RawURLEncoding.DecodeString] *)

Definition in_range (lo hi n : nat) : bool := (lo <=? n)%nat && (n <=? hi)%nat.

(** The URL alphabet: [A-Z], [a-z], [0-9], [-], [_]. *)
Definition decodeMap (c : ascii) : option Z :=
  let n := nat_of_ascii c in
  if in_range 65 90 n then Some (Z.of_nat n - 65)
  else if in_range 97 122 n then Some (Z.of_nat n - 97 + 26)
  else if in_range 48 57 n then Some (Z.of_nat n - 48 + 52)
  else if (n =? 45)%nat then Some 62
  else if (n =? 95)%nat then Some 63
  else None.

Definition is_newline (c : ascii) : bool :=
  let n := nat_of_ascii c in (n =? 10)%nat || (n =? 13)%nat.

(** The six-bit values of the input; line feeds and carriage returns are
    skipped, any other character outside the alphabet is corrupt input. *)
Fixpoint sextets (s : string) : option (list Z) :=
  match s with
  | EmptyString => Some []
  | String c rest =>
      match decodeMap c with
      | Some v => cons v <$> sextets rest
      | None => if is_newline c then sextets rest else None
      end
  end.

Definition quantum_val (a b c d : Z) : Z :=
  Z.lor (Z.lor (Z.lor (Z.shiftl a 18) (Z.shiftl b 12)) (Z.shiftl c 6)) d.

Definition byte_of (v : Z) (shift : Z) : Z := Z.land (Z.shiftr v shift) 255.

(** Four six-bit values give three bytes.  Without padding a last group of
    three gives two bytes, of two gives one byte, and a single left-over
    value is corrupt input; the encoding is not strict, so unused low bits
    of a short last group are dropped without a check. *)
Fixpoint quanta (l : list Z) : option (list Z) :=
  match l with
  | [] => Some []
  | [_] => None
  | [a; b] => Some [byte_of (quantum_val a b 0 0) 16]
  | [a; b; c] =>
      let v := quantum_val a b c 0 in Some [byte_of v 16; byte_of v 8]
  | a :: b :: c :: d :: rest =>
      let v := quantum_val a b c d in
      (fun tl => byte_of v 16 :: byte_of v 8 :: byte_of v 0 :: tl) <$> quanta rest
  end.

Definition base64_DecodeString (s : string) : option (list Z) :=
  sextets s ≫= quanta.

(** *** math/big: [SetBytes] reads a big-endian unsigned integer, [Int64]
    keeps its low 64 bits as a signed value. *)
Definition big_SetBytes (bs : list Z) : Z :=
  fold_left (fun acc b => acc * 256 + b) bs 0.

Definition big_Int64 (x : Z) : Z :=
  let lo := x mod 2 ^ 64 in
  if lo <? 2 ^ 63 then lo else lo - 2 ^ 64.

(** *** time *)

Definition Time : Type := Z.

(** [t.Before(u)] *)
Definition Before (t u : Time) : bool := t <? u.

(** [t.Unix()], whole seconds since the epoch *)
Definition Unix (t : Time) : Z := t / 1000000000.

(** The zero [time.Time], January 1 of year 1. *)
Definition zeroTime : Time := -62135596800 * 1000000000.

Definition bytes_of_string (s : string) : list Z :=
  (fun c => Z.of_nat (nat_of_ascii c)) <$> list_ascii_of_string s.

(** ** Data model *)

(** An entry of the key-set document and the document itself.  [Keys] is a
    slice: [None] is the nil slice left by a document without a [keys]
    member, [Some []] is a present but empty list. *)
Record jwk : Type := { jwk_N : string; jwk_E : string; jwk_KID : string }.

Record jwks : Type := { Keys : option (list jwk) }.

(** [rsa.PublicKey] with its fields [N] and [E]; [E] is an [int], 64 bits
    wide. *)
Record PublicKey : Type := { pk_N : Z; pk_E : Z }.

Record Header : Type := { ALG : string; KID : string; TYP : string }.

Record Claims : Type := {
  ISS : string; AZP : string; AUD : string; SUB : string;
  Email : string; EmailVerified : bool; ATHash : string; Name : string;
  Picture : string; GivenName : string; FamilyName : string;
  Locale : string; Nonce : string; Profile : string; HD : string;
  IAT : Z; EXP : Z }.

Record JWT : Type := { header : Header; claims : Claims; Signature : string }.

(** One constructor per [fmt.Errorf] of the package, with the wrapped error
    where the format has one.  The text library errors would add to a
    message is not kept. *)
Inductive error : Type :=
  | ErrMalformedToken (tokenString : string)
      (* "malformed token %v" *)
  | ErrDecodeToken (parts : list string) (err : error)
      (* "decode token %v - %v" *)
  | ErrExpectedRS256 (alg : string)
      (* "expected alg RS256, but token alg is %v" *)
  | ErrRetrieveKey (err : error)
      (* "retrieve key - %v" *)
  | ErrKeyNotFound
      (* "matching key not found" *)
  | ErrVerifySignature (err : error)
      (* "verify signature - %v" *)
  | ErrInvalidIssuer
      (* "invalid issuer" *)
  | ErrClientID
      (* "client ID does not match" *)
  | ErrTokenExpired
      (* "token expired" *)
  | ErrIssuedForFuture
      (* "token issued for future time" *)
  | ErrSignatureBase64 (signature : string)
      (* "unable to base64 decode signature %v, %v" *)
  | ErrVerificationFailed
      (* "signature verification failed, %v" *)
  | ErrBase64 (segment : string)
      (* "unable to base64 decode %v, %v" *)
  | ErrJson (bytes : list Z)
      (* "unable to json decode %v, %v" *)
  | ErrFetchKey (err : error)
      (* "fetch key - %v" *)
  | ErrUpdateKeyCache (err : error)
      (* "update key cache - %v" *)
  | ErrParseJWKS (err : error)
      (* "unable to parse JWKS %v" *)
  | ErrMissingInfo (k : jwk)
      (* "missing info in JWK %v" *)
  | ErrBase64N (n : string)
      (* "unable to base64 decode jwk n value %v, %v" *)
  | ErrBase64E (e : string)
      (* "unable to base64 decode jwk e value %v, %v" *)
  | ErrNoPublicKeys
      (* "no public keys %v" *)
  | ErrDecodeJson
      (* "decode json %v - %v" *)
  | ErrEmptyKeyList
      (* "empty key list %v" *)
  | ErrFetcher (msg : string)
      (* an error made by the injected fetcher *).

(** [KeyFetcherFunc]: what the n-th call returns, the stream read to its
    end, the deadline, and the error. *)
Definition KeyFetcherFunc : Type := nat -> string * Time * option error.

Record keyCache : Type := {
  keyFetcher : KeyFetcherFunc;
  publicKeys : gmap string PublicKey;
  keyExpire : Time }.

(** [Verifier]: its field [keys] is a pointer, the cache it points to is the
    [cache] of the state. *)
Record Verifier : Type := { clientID : string; issuer : string }.

Record State : Type := {
  cache : keyCache;
  clock_reads : nat;
  fetch_calls : nat }.

(** The library functions the package calls and does not define. *)
Record Externals : Type := {
  json_Unmarshal_Header : list Z -> option Header;
  json_Unmarshal_Claims : list Z -> option Claims;
  json_Decode_jwks : string -> option jwks;
  sha256_Sum256 : string -> list Z;
  rsa_VerifyPKCS1v15 : PublicKey -> list Z -> list Z -> bool }.

(** ** The package *)

Section Package.

Context (X : Externals).

(** [time.Now()] at its n-th call. *)
Context (wall_clock : nat -> Time).

Definition time_Now (st : State) : Time * State :=
  (wall_clock (clock_reads st),
   {| cache := cache st;
      clock_reads := S (clock_reads st);
      fetch_calls := fetch_calls st |}).

(** [v.keyFetcher()] *)
Definition call_keyFetcher (st : State) : (string * Time * option error) * State :=
  (keyFetcher (cache st) (fetch_calls st),
   {| cache := cache st;
      clock_reads := clock_reads st;
      fetch_calls := S (fetch_calls st) |}).

(** [parseJWKS] *)
Definition parseJWKS (r : string) : error + jwks :=
  match json_Decode_jwks X r with
  | None => inl ErrDecodeJson
  | Some keys =>
      match Keys keys with
      | None => inl ErrEmptyKeyList
      | Some _ => inr keys
      end
  end.

(** The body of the loop of [UpdatePublicKey] for one entry: the key it
    stores, or the error it returns with. *)
Definition decode_jwk (v : jwk) : error + PublicKey :=
  if String.eqb (jwk_E v) "" || String.eqb (jwk_N v) "" || String.eqb (jwk_KID v) ""
  then inl (ErrMissingInfo v)
  else
    match base64_DecodeString (jwk_N v) with
    | None => inl (ErrBase64N (jwk_N v))
    | Some decodedN =>
        match base64_DecodeString (jwk_E v) with
        | None => inl (ErrBase64E (jwk_E v))
        | Some decodedE =>
            let n := big_SetBytes decodedN in
            let e := big_Int64 (big_SetBytes decodedE) in
            inr {| pk_N := n; pk_E := e |}
        end
    end.

(** [for _, v := range jwks.Keys { ... m[v.KID] = ... }] *)
Fixpoint range_Keys (ks : list jwk) (m : gmap string PublicKey)
  : error + gmap string PublicKey :=
  match ks with
  | [] => inr m
  | v :: rest =>
      match decode_jwk v with
      | inl err => inl err
      | inr key => range_Keys rest (<[jwk_KID v := key]> m)
      end
  end.

(** [keyCache.UpdatePublicKey]: the state changes only in the last branch,
    where both fields are assigned under the lock. *)
Definition UpdatePublicKey (jwksReader : string) (expiration : Time) (st : State)
  : option error * State :=
  match parseJWKS jwksReader with
  | inl err => (Some (ErrParseJWKS err), st)
  | inr jwks =>
      match range_Keys (default [] (Keys jwks)) ∅ with
      | inl err => (Some err, st)
      | inr m =>
          if (size m =? 0)%nat then (Some ErrNoPublicKeys, st)
          else
            (None,
             {| cache := {| keyFetcher := keyFetcher (cache st);
                            publicKeys := m;
                            keyExpire := expiration |};
                clock_reads := clock_reads st;
                fetch_calls := fetch_calls st |})
      end
  end.

(** [keyCache.retrieveKey] *)
Definition retrieveKey (kid : string) (st : State)
  : (option PublicKey * option error) * State :=
  let '(now, st1) := time_Now st in
  if Before (keyExpire (cache st1)) now then
    let '((reader, expires, err), st2) := call_keyFetcher st1 in
    match err with
    | Some err => ((None, Some (ErrFetchKey err)), st2)
    | None =>
        let '(err, st3) := UpdatePublicKey reader expires st2 in
        match err with
        | Some err => ((None, Some (ErrUpdateKeyCache err)), st3)
        | None => ((publicKeys (cache st3) !! kid, None), st3)
        end
    end
  else ((publicKeys (cache st1) !! kid, None), st1).

(** [newKeyCache] *)
Definition newKeyCache (keyFetcherFunc : KeyFetcherFunc) (st : State)
  : option error * State :=
  let k := {| keyFetcher := keyFetcherFunc;
              publicKeys := ∅;
              keyExpire := zeroTime |} in
  let '((_, err), st1) :=
    retrieveKey "" {| cache := k;
                      clock_reads := clock_reads st;
                      fetch_calls := fetch_calls st |} in
  (err, st1).

(** [NewVerifier] *)
Definition NewVerifier (keyFetcher : KeyFetcherFunc) (clientID : string) (st : State)
  : (Verifier * option error) * State :=
  let '(err, st1) := newKeyCache keyFetcher st in
  (({| clientID := clientID; issuer := "https://accounts.google.com" |}, err), st1).

(** [verifySignature] *)
Definition verifySignature (signedString signature : string) (key : PublicKey)
  : option error :=
  match base64_DecodeString signature with
  | None => Some (ErrSignatureBase64 signature)
  | Some sig =>
      let hashed := sha256_Sum256 X signedString in
      if rsa_VerifyPKCS1v15 X key hashed sig then None
      else Some ErrVerificationFailed
  end.

(** [parseJWT] *)
Definition parseJWT (header claims signature : string) : error + JWT :=
  match base64_DecodeString header with
  | None => inl (ErrBase64 header)
  | Some h =>
      match json_Unmarshal_Header X h with
      | None => inl (ErrJson h)
      | Some tokenHeader =>
          match base64_DecodeString claims with
          | None => inl (ErrBase64 claims)
          | Some c =>
              match json_Unmarshal_Claims X c with
              | None => inl (ErrJson c)
              | Some tokenClaims =>
                  inr {| header := tokenHeader;
                         claims := tokenClaims;
                         Signature := signature |}
              end
          end
      end
  end.

(** [Verifier.ParseAndVerify] *)
Definition ParseAndVerify (v : Verifier) (tokenString : string) (st : State)
  : (option JWT * option error) * State :=
  match strings_Split_dot tokenString with
  | [p0; p1; p2] =>
      match parseJWT p0 p1 p2 with
      | inl err => ((None, Some (ErrDecodeToken [p0; p1; p2] err)), st)
      | inr parsedToken =>
          if negb (String.eqb (ALG (header parsedToken)) "RS256") then
            ((None, Some (ErrExpectedRS256 (ALG (header parsedToken)))), st)
          else
            let '((key, err), st1) := retrieveKey (KID (header parsedToken)) st in
            match err, key with
            | Some err, _ => ((None, Some (ErrRetrieveKey err)), st1)
            | None, None => ((None, Some ErrKeyNotFound), st1)
            | None, Some key =>
                match verifySignature (strings_Join_dot p0 p1) p2 key with
                | Some err => ((None, Some (ErrVerifySignature err)), st1)
                | None =>
                    if negb (String.eqb (ISS (claims parsedToken)) (issuer v)) then
                      ((None, Some ErrInvalidIssuer), st1)
                    else if negb (String.eqb (AUD (claims parsedToken)) (clientID v)) then
                      ((None, Some ErrClientID), st1)
                    else
                      let '(now, st2) := time_Now st1 in
                      if EXP (claims parsedToken) <=? Unix now then
                        ((None, Some ErrTokenExpired), st2)
                      else
                        let '(now', st3) := time_Now st2 in
                        if IAT (claims parsedToken) >? Unix now' then
                          ((None, Some ErrIssuedForFuture), st3)
                        else ((Some parsedToken, None), st3)
                end
            end
      end
  | _ => ((None, Some (ErrMalformedToken tokenString)), st)
  end.

End Package.

(** ** The revision before the current one

    Its [ParseAndVerify] began with a stricter test, [len(parts) != 3 ||
    parts[2] == ""], which turned an empty third segment into a malformed
    token; the current revision dropped the second disjunct. *)
Module Superseded.

Definition malformed (parts : list string) : bool :=
  match parts with
  | [_; _; p2] => String.eqb p2 ""
  | _ => true
  end.

End Superseded.

(** ** Vocabulary of the properties *)

(** The steps of [ParseAndVerify], in the order of the specification. *)
Inductive step : Type :=
  | StepSplit | StepDecode | StepAlgorithm | StepKey | StepSignature
  | StepIssuer | StepAudience | StepExpiry | StepIssuedAt.

(** How often the clock has been read when a call ends at a given step: the
    key lookup reads it once, the expiry and issued-at checks once each. *)
Definition clock_reads_through (s : step) : nat :=
  match s with
  | StepSplit | StepDecode | StepAlgorithm => 0
  | StepKey | StepSignature | StepIssuer | StepAudience => 1
  | StepExpiry => 2
  | StepIssuedAt => 3
  end.

Definition before_key (s : step) : bool :=
  match s with
  | StepSplit | StepDecode | StepAlgorithm => true
  | _ => false
  end.

(** An entry lacks a field. *)
Definition missing_field (k : jwk) : Prop :=
  jwk_KID k = "" ∨ jwk_N k = "" ∨ jwk_E k = "".

(** An entry has its three fields and both numbers decode. *)
Definition complete_entry (k : jwk) : Prop :=
  jwk_KID k ≠ "" ∧ jwk_N k ≠ "" ∧ jwk_E k ≠ "" ∧
  is_Some (base64_DecodeString (jwk_N k)) ∧
  is_Some (base64_DecodeString (jwk_E k)).

(** The errors the loop of [UpdatePublicKey] returns for an entry. *)
Definition entry_error (e : error) : Prop :=
  match e with
  | ErrMissingInfo _ | ErrBase64N _ | ErrBase64E _ => True
  | _ => False
  end.

Section Statements.

Context (X : Externals) (wall_clock : nat -> Time).

(** The token has passed every step up to and including the named one.
    [p0], [p1], [p2] are its segments, [t] the decoded token, [key] the key
    found for it and [st1] the state the key lookup leaves. *)
Definition passes_split (tok p0 p1 p2 : string) : Prop :=
  strings_Split_dot tok = [p0; p1; p2].

Definition passes_decode (tok p0 p1 p2 : string) (t : JWT) : Prop :=
  passes_split tok p0 p1 p2 ∧ parseJWT X p0 p1 p2 = inr t.

Definition passes_algorithm (tok p0 p1 p2 : string) (t : JWT) : Prop :=
  passes_decode tok p0 p1 p2 t ∧ ALG (header t) = "RS256".

Definition passes_key (tok p0 p1 p2 : string) (t : JWT) (st : State)
    (key : PublicKey) (st1 : State) : Prop :=
  passes_algorithm tok p0 p1 p2 t ∧
  retrieveKey X wall_clock (KID (header t)) st = ((Some key, None), st1).

Definition passes_signature (tok p0 p1 p2 : string) (t : JWT) (st : State)
    (key : PublicKey) (st1 : State) : Prop :=
  passes_key tok p0 p1 p2 t st key st1 ∧
  verifySignature X (strings_Join_dot p0 p1) p2 key = None.

Definition passes_issuer (v : Verifier) (tok p0 p1 p2 : string) (t : JWT)
    (st : State) (key : PublicKey) (st1 : State) : Prop :=
  passes_signature tok p0 p1 p2 t st key st1 ∧ ISS (claims t) = issuer v.

Definition passes_audience (v : Verifier) (tok p0 p1 p2 : string) (t : JWT)
    (st : State) (key : PublicKey) (st1 : State) : Prop :=
  passes_issuer v tok p0 p1 p2 t st key st1 ∧ AUD (claims t) = clientID v.

(** The time, in seconds, the expiry check reads, and the one the issued-at
    check reads after it. *)
Definition now_at_expiry (st1 : State) : Z := Unix (wall_clock (clock_reads st1)).

Definition now_at_issued_at (st1 : State) : Z :=
  Unix (wall_clock (S (clock_reads st1))).

(** The token reaches the expiry check: it passed all that comes before. *)
Definition reaches_expiry_check (v : Verifier) (tok : string) (st : State)
    (t : JWT) (st1 : State) : Prop :=
  ∃ p0 p1 p2 key, passes_audience v tok p0 p1 p2 t st key st1.

(** The token reaches the issued-at check. *)
Definition reaches_issued_at_check (v : Verifier) (tok : string) (st : State)
    (t : JWT) (st1 : State) : Prop :=
  reaches_expiry_check v tok st t st1 ∧ EXP (claims t) > now_at_expiry st1.

(** [first_failure v tok st s e st']: the token passes every step before [s]
    and fails [s] with [e]; [st'] is the state once [s] has run.  Nothing is
    said about the steps after [s]. *)
Inductive first_failure (v : Verifier) (tok : string) (st : State)
  : step -> error -> State -> Prop :=
  | fail_split :
      length (strings_Split_dot tok) ≠ 3%nat ->
      first_failure v tok st StepSplit (ErrMalformedToken tok) st
  | fail_decode p0 p1 p2 e :
      passes_split tok p0 p1 p2 ->
      parseJWT X p0 p1 p2 = inl e ->
      first_failure v tok st StepDecode (ErrDecodeToken [p0; p1; p2] e) st
  | fail_algorithm p0 p1 p2 t :
      passes_decode tok p0 p1 p2 t ->
      ALG (header t) ≠ "RS256" ->
      first_failure v tok st StepAlgorithm (ErrExpectedRS256 (ALG (header t))) st
  | fail_key_error p0 p1 p2 t key e st1 :
      passes_algorithm tok p0 p1 p2 t ->
      retrieveKey X wall_clock (KID (header t)) st = ((key, Some e), st1) ->
      first_failure v tok st StepKey (ErrRetrieveKey e) st1
  | fail_key_missing p0 p1 p2 t st1 :
      passes_algorithm tok p0 p1 p2 t ->
      retrieveKey X wall_clock (KID (header t)) st = ((None, None), st1) ->
      first_failure v tok st StepKey ErrKeyNotFound st1
  | fail_signature p0 p1 p2 t key st1 e :
      passes_key tok p0 p1 p2 t st key st1 ->
      verifySignature X (strings_Join_dot p0 p1) p2 key = Some e ->
      first_failure v tok st StepSignature (ErrVerifySignature e) st1
  | fail_issuer p0 p1 p2 t key st1 :
      passes_signature tok p0 p1 p2 t st key st1 ->
      ISS (claims t) ≠ issuer v ->
      first_failure v tok st StepIssuer ErrInvalidIssuer st1
  | fail_audience p0 p1 p2 t key st1 :
      passes_issuer v tok p0 p1 p2 t st key st1 ->
      AUD (claims t) ≠ clientID v ->
      first_failure v tok st StepAudience ErrClientID st1
  | fail_expiry t st1 :
      reaches_expiry_check v tok st t st1 ->
      EXP (claims t) <= now_at_expiry st1 ->
      first_failure v tok st StepExpiry ErrTokenExpired
        (snd (time_Now wall_clock st1))
  | fail_issued_at t st1 :
      reaches_issued_at_check v tok st t st1 ->
      IAT (claims t) > now_at_issued_at st1 ->
      first_failure v tok st StepIssuedAt ErrIssuedForFuture
        (snd (time_Now wall_clock (snd (time_Now wall_clock st1)))).

(** The instant [retrieveKey] reads, and whether a call made in state [st]
    invokes the fetch function. *)
Definition now_at_lookup (st : State) : Time := wall_clock (clock_reads st).

Definition fetch_invoked (kid : string) (st : State) : Prop :=
  fetch_calls (snd (retrieveKey X wall_clock kid st)) = S (fetch_calls st).

(** A call of [retrieveKey] in state [st] attempts a refresh and the refresh
    fails: the fetch function returns an error, or [UpdatePublicKey] returns
    one for the document fetched. *)
Definition refresh_fails (st : State) : Prop :=
  Before (keyExpire (cache st)) (now_at_lookup st) = true ∧
  ∃ reader expires ferr,
    keyFetcher (cache st) (fetch_calls st) = (reader, expires, ferr) ∧
    (ferr ≠ None ∨ fst (UpdatePublicKey X reader expires st) ≠ None).

(** The refresh check of a call of [retrieveKey] in state [st] goes through
    and leaves [st']: either the cache is still fresh, or it is refreshed
    without an error. *)
Definition refresh_check_passes (st st' : State) : Prop :=
  (Before (keyExpire (cache st)) (now_at_lookup st) = false ∧
   st' = snd (time_Now wall_clock st))
  ∨
  (Before (keyExpire (cache st)) (now_at_lookup st) = true ∧
   ∃ reader expires,
     keyFetcher (cache st) (fetch_calls st) = (reader, expires, None) ∧
     UpdatePublicKey X reader expires
       (snd (call_keyFetcher (snd (time_Now wall_clock st)))) = (None, st')).

(** The refresh rule as the specification words it: the fetch function is
    invoked exactly when the deadline is reached, [now >= deadline]. *)
Definition fetch_at_or_after_deadline (kid : string) (st : State) : Prop :=
  fetch_invoked kid st ↔ now_at_lookup st >= keyExpire (cache st).

(** The rule for incomplete entries as the specification words it: a
    document with an entry that lacks a field is rejected with the error
    for a missing field. *)
Definition missing_field_reported (r : string) (expiration : Time) (st : State)
  : Prop :=
  ∀ entries,
    json_Decode_jwks X r = Some {| Keys := Some entries |} ->
    Exists missing_field entries ->
    ∃ k, fst (UpdatePublicKey X r expiration st) = Some (ErrMissingInfo k).

End Statements.

(** ** Concrete inputs

    To run the package on explicit inputs the library functions need an
    instance.  The one below knows a handful of documents by name and treats
    every other input as unparseable; its signature check accepts exactly
    the signatures equal to the digest, and its digest is the input itself.
    It is only used to evaluate the definitions at examples: the theorems
    are stated for every instance of [Externals]. *)
Module Demo.

Definition mkHeader (alg kid : string) : Header :=
  {| ALG := alg; KID := kid; TYP := "JWT" |}.

Definition mkClaims (iss aud : string) (iat exp : Z) : Claims :=
  {| ISS := iss; AZP := aud; AUD := aud; SUB := "1234";
     Email := "1234@gmail.com"; EmailVerified := true; ATHash := "";
     Name := "Foo Bar"; Picture := ""; GivenName := "Foo";
     FamilyName := "Bar"; Locale := "en"; Nonce := ""; Profile := "";
     HD := ""; IAT := iat; EXP := exp |}.

Definition google : string := "https://accounts.google.com".

Definition unmarshal_Header (b : list Z) : option Header :=
  if bool_decide (b = bytes_of_string "H1") then Some (mkHeader "RS256" "k1")
  else if bool_decide (b = bytes_of_string "H2") then Some (mkHeader "HS256" "k1")
  else if bool_decide (b = bytes_of_string "H3") then Some (mkHeader "RS256" "k9")
  else None.

Definition unmarshal_Claims (b : list Z) : option Claims :=
  if bool_decide (b = bytes_of_string "C1")
  then Some (mkClaims google "client-123" 1490 2000)
  else if bool_decide (b = bytes_of_string "C2")
  then Some (mkClaims "https://accounts.example.com" "client-999" 5000 10)
  else if bool_decide (b = bytes_of_string "C3")
  then Some (mkClaims google "client-123" 1500 1500)
  else if bool_decide (b = bytes_of_string "C4")
  then Some (mkClaims google "client-123" 1500 2000)
  else None.

Definition entry (n e kid : string) : jwk :=
  {| jwk_N := n; jwk_E := e; jwk_KID := kid |}.

Definition decode_jwks (r : string) : option jwks :=
  if String.eqb r "J1" then Some {| Keys := Some [entry "u1SU" "AQAB" "k1"] |}
  else if String.eqb r "J2"
  then Some {| Keys := Some [entry "u1SU" "AQAB" "k1"; entry "1LfV" "AQAB" "k2"] |}
  else if String.eqb r "J0" then Some {| Keys := Some [] |}
  else if String.eqb r "Jnil" then Some {| Keys := None |}
  else if String.eqb r "Jmiss" then Some {| Keys := Some [entry "u1SU" "" "k1"] |}
  else if String.eqb r "Jbad"
  then Some {| Keys := Some [entry "!" "AQAB" "k0"; entry "" "" ""] |}
  else None.

Definition externals : Externals :=
  {| json_Unmarshal_Header := unmarshal_Header;
     json_Unmarshal_Claims := unmarshal_Claims;
     json_Decode_jwks := decode_jwks;
     sha256_Sum256 := bytes_of_string;
     rsa_VerifyPKCS1v15 := fun _ hashed sig => bool_decide (hashed = sig) |}.

Definition seconds (n : Z) : Time := n * 1000000000.

(** Every reading of the clock gives second 1500. *)
Definition clock : nat -> Time := fun _ => seconds 1500.

Definition fetch (r : string) (deadline : Time) : KeyFetcherFunc :=
  fun _ => (r, deadline, None).

Definition fetch_fails : KeyFetcherFunc :=
  fun _ => ("", zeroTime, Some (ErrFetcher "request - timeout")).

Definition key1 : PublicKey := {| pk_N := 12276884; pk_E := 65537 |}.

Definition state (f : KeyFetcherFunc) (deadline : Time) : State :=
  {| cache := {| keyFetcher := f;
                 publicKeys := {[ "k1" := key1 ]};
                 keyExpire := deadline |};
     clock_reads := 0;
     fetch_calls := 0 |}.

(** A cache that is fresh, one that is stale, and one whose deadline is the
    very instant the clock shows. *)
Definition fresh : State := state (fetch "J2" (seconds 9000)) (seconds 9000).
Definition stale : State := state (fetch "J2" (seconds 9000)) (seconds 1000).
Definition at_deadline : State := state (fetch "J2" (seconds 9000)) (seconds 1500).

(** Two stale caches whose refresh fails: the fetch function returns an
    error, or the document fetched lists no key. *)
Definition stale_fetch_fails : State := state fetch_fails (seconds 1000).
Definition stale_empty_set : State := state (fetch "J0" (seconds 9000)) (seconds 1000).

(** Tokens: header [H1] names key [k1], [H2] an algorithm that is not
    RS256, [H3] an unknown key; claims [C1] are valid at second 1500, [C2]
    have a foreign issuer and audience, an expiry in the past and an
    issued-at time in the future, [C3] expire at second 1500 and [C4] were
    issued at second 1500. *)
Definition valid_token : string := "SDE.QzE.U0RFLlF6RQ".
Definition wrong_algorithm_and_claims : string := "SDI.QzI.x".
Definition wrong_issuer : string := "SDE.QzI.U0RFLlF6SQ".
Definition expiring_now : string := "SDE.QzM.U0RFLlF6TQ".
Definition issued_now : string := "SDE.QzQ.U0RFLlF6UQ".
Definition unknown_kid : string := "SDM.QzE.U0RNLlF6RQ".
Definition no_signature : string := "SDE.QzE.".

Definition verifier : Verifier := {| clientID := "client-123"; issuer := google |}.

Definition run (tokenString : string) (st : State) :=
  ParseAndVerify externals clock verifier tokenString st.

End Demo.

(** A second instance, which also knows a document that lists the
    identifier [k1] twice. *)
Module Demo2.

Definition decode_jwks (r : string) : option jwks :=
  if String.eqb r "Jdup"
  then Some {| Keys := Some [Demo.entry "u1SU" "AQAB" "k1";
                             Demo.entry "1LfV" "AQAB" "k1"] |}
  else Demo.decode_jwks r.

Definition externals : Externals :=
  {| json_Unmarshal_Header := Demo.unmarshal_Header;
     json_Unmarshal_Claims := Demo.unmarshal_Claims;
     json_Decode_jwks := decode_jwks;
     sha256_Sum256 := bytes_of_string;
     rsa_VerifyPKCS1v15 := fun _ hashed sig => bool_decide (hashed = sig) |}.

(** A stale cache that holds a key [k7], which the document the fetch
    function returns no longer lists. *)
Definition rotated : State :=
  {| cache := {| keyFetcher := Demo.fetch "J2" (Demo.seconds 9000);
                 publicKeys := {[ "k7" := Demo.key1 ]};
                 keyExpire := Demo.seconds 1000 |};
     clock_reads := 0;
     fetch_calls := 0 |}.

End Demo2.

(** ** Reading [max-age] from a [cache-control] header *)

(** [strings.Split(s, sep)] for a separator that is not empty: the pieces
    between the occurrences of [sep], found from the left and without
    overlap.  [skip] counts the characters of a separator just found that
    are still to be passed over. *)
Fixpoint split_str (sep : string) (skip : nat) (s : string) : list string :=
  match s with
  | EmptyString => [EmptyString]
  | String c rest =>
      match skip with
      | S k => split_str sep k rest
      | O =>
          if String.prefix sep s
          then EmptyString :: split_str sep (String.length sep - 1) rest
          else match split_str sep 0 rest with
               | p :: ps => String c p :: ps
               | [] => [String c EmptyString]
               end
      end
  end.

Definition strings_Split (s sep : string) : list string := split_str sep 0 s.

(** [strings.HasPrefix(s, prefix)] *)
Definition strings_HasPrefix (s prefix : string) : bool := String.prefix prefix s.

Definition digit_val (c : ascii) : option Z :=
  let n := nat_of_ascii c in
  if in_range 48 57 n then Some (Z.of_nat n - 48) else None.

Fixpoint digits_val (s : string) (acc : Z) : option Z :=
  match s with
  | EmptyString => Some acc
  | String c rest =>
      match digit_val c with
      | Some d => digits_val rest (acc * 10 + d)
      | None => None
      end
  end.

(** [strconv.Atoi] for a 64-bit [int]: an optional sign, then at least one
    decimal digit and nothing else, and a value that fits; [None] is the
    error it returns otherwise. *)
Definition strconv_Atoi (s : string) : option Z :=
  match s with
  | EmptyString => None
  | String c rest =>
      let neg := Ascii.eqb c "-" in
      let body := if neg || Ascii.eqb c "+" then rest else s in
      match body with
      | EmptyString => None
      | _ =>
          match digits_val body 0 with
          | None => None
          | Some n =>
              let v := if neg then - n else n in
              if (- 2 ^ 63 <=? v) && (v <? 2 ^ 63) then Some v else None
          end
      end
  end.

Inductive max_age_error : Type :=
  | ErrConvertMaxAge (maxAgeStr : string)
      (* "convert max-age value %v to number - %v" *)
  | ErrMaxAgeNotFound (cacheCtrlValue : string)
      (* "max-age not found in %v" *).

(** How a call ends: with a value, with an error, or in a run-time panic. *)
Inductive outcome (A : Type) : Type :=
  | Returns (a : A)
  | Fails (e : max_age_error)
  | Panics.

Arguments Returns {A} a.
Arguments Fails {A} e.
Arguments Panics {A}.

(** What the body of the loop of [extractMaxAge] does with a directive that
    has the prefix: [strings.Split(v, "=")[1]] is out of range when [v] has
    no [=]. *)
Definition max_age_of (v : string) : outcome Z :=
  match split_sep "=" v with
  | _ :: maxAgeStr :: _ =>
      match strconv_Atoi maxAgeStr with
      | None => Fails (ErrConvertMaxAge maxAgeStr)
      | Some maxAge => Returns maxAge
      end
  | _ => Panics
  end.

(** [for _, v := range cacheValues { ... }]; [None] when the loop ends
    without a return. *)
Fixpoint range_cacheValues (cacheValues : list string) : option (outcome Z) :=
  match cacheValues with
  | [] => None
  | v :: rest =>
      if strings_HasPrefix v "max-age" then Some (max_age_of v)
      else range_cacheValues rest
  end.

(** [extractMaxAge] *)
Definition extractMaxAge (cacheCtrlValue : string) : outcome Z :=
  match range_cacheValues (strings_Split cacheCtrlValue ", ") with
  | Some o => o
  | None => Fails (ErrMaxAgeNotFound cacheCtrlValue)
  end.

(** ** Further vocabulary *)

(** How often a character occurs in a string, and whether it does not. *)
Fixpoint count_char (c : ascii) (s : string) : nat :=
  match s with
  | EmptyString => 0
  | String a rest => (if Ascii.eqb a c then 1 else 0) + count_char c rest
  end.

Definition free_of (c : ascii) (s : string) : Prop := count_char c s = 0%nat.

(** [strings.Join(l, sep)] *)
Fixpoint strings_Join (l : list string) (sep : string) : string :=
  match l with
  | [] => EmptyString
  | [a] => a
  | a :: rest => a +:+ sep +:+ strings_Join rest sep
  end.

(** A value a byte can have. *)
Definition is_byte (b : Z) : Prop := 0 <= b < 256.

(** A string of decimal digits, at least one. *)
Definition decimal (s : string) : Prop :=
  s ≠ EmptyString ∧ is_Some (digits_val s 0).

(** The entries of a document after a given one do not reuse its
    identifier. *)
Definition last_with_identifier (k : jwk) (post : list jwk) : Prop :=
  Forall (fun k' => jwk_KID k' ≠ jwk_KID k) post.

(** ** The library functions at a few inputs *)

Example split_three : strings_Split_dot "ab.c." = ["ab"; "c"; ""].
Proof. reflexivity. Qed.

Example split_none : strings_Split_dot "" = [""].
Proof. reflexivity. Qed.

Example b64_AQAB : base64_DecodeString "AQAB" = Some [1; 0; 1].
Proof. reflexivity. Qed.

Example b64_short : base64_DecodeString "SDE" = Some (bytes_of_string "H1").
Proof. reflexivity. Qed.

Example b64_one_left : base64_DecodeString "AQABA" = None.
Proof. reflexivity. Qed.

Example b64_bad_char : base64_DecodeString "!" = None.
Proof. reflexivity. Qed.

Example exponent_65537 : big_Int64 (big_SetBytes [1; 0; 1]) = 65537.
Proof. reflexivity. Qed.

Example demo_valid :
  fst (Demo.run "SDE.QzE.U0RFLlF6RQ" Demo.fresh)
  = (Some {| header := Demo.mkHeader "RS256" "k1";
             claims := Demo.mkClaims Demo.google "client-123" 1490 2000;
             Signature := "U0RFLlF6RQ" |}, None).
Proof. vm_compute. reflexivity. Qed.

Example demo_u1SU : big_SetBytes (default [] (base64_DecodeString "u1SU")) = 12276884.
Proof. vm_compute. reflexivity. Qed.

Example split_directives :
  strings_Split "public, max-age=22572, must-revalidate, no-transform" ", "
  = ["public"; "max-age=22572"; "must-revalidate"; "no-transform"].
Proof. reflexivity. Qed.

Example max_age_22572 :
  extractMaxAge "public, max-age=22572, must-revalidate, no-transform"
  = Returns 22572.
Proof. reflexivity. Qed.

Example max_age_without_value : extractMaxAge "public, max-age" = Panics.
Proof. reflexivity. Qed.

Example max_age_absent :
  extractMaxAge "no-store" = Fails (ErrMaxAgeNotFound "no-store").
Proof. reflexivity. Qed.

Example atoi_signs :
  strconv_Atoi "+7" = Some 7 ∧ strconv_Atoi "-7" = Some (-7)
  ∧ strconv_Atoi "-" = None ∧ strconv_Atoi "7s" = None
  ∧ strconv_Atoi "9223372036854775808" = None
  ∧ strconv_Atoi "-9223372036854775808" = Some (-9223372036854775808).
Proof. repeat split; reflexivity. Qed.

(** ** Properties of the key-set decoder and of the key cache *)

Section KeyCache.

Context (X : Externals) (wall_clock : nat -> Time).

Lemma eqb_empty_false (a : string) : a ≠ "" -> String.eqb a "" = false.
Proof. apply String.eqb_neq. Qed.

Lemma decode_jwk_missing k : missing_field k -> decode_jwk k = inl (ErrMissingInfo k).
Proof.
  intros Hmiss. unfold decode_jwk.
  assert (Hor : String.eqb (jwk_E k) "" || String.eqb (jwk_N k) ""
                || String.eqb (jwk_KID k) "" = true).
  { destruct Hmiss as [H|[H|H]]; rewrite H; simpl;
      rewrite ?orb_true_r; reflexivity. }
  rewrite Hor. reflexivity.
Qed.

Lemma decode_jwk_complete k : complete_entry k -> ∃ key, decode_jwk k = inr key.
Proof.
  intros (Hkid & Hn & He & [bn Hbn] & [be Hbe]). unfold decode_jwk.
  rewrite (eqb_empty_false _ Hkid), (eqb_empty_false _ Hn), (eqb_empty_false _ He).
  simpl. rewrite Hbn, Hbe. eexists. reflexivity.
Qed.

Lemma decode_jwk_error k e : decode_jwk k = inl e -> entry_error e.
Proof.
  unfold decode_jwk. destruct (_ || _); [intros [= <-]; exact I|].
  destruct (base64_DecodeString (jwk_N k)); [|intros [= <-]; exact I].
  destruct (base64_DecodeString (jwk_E k)); [discriminate|intros [= <-]; exact I].
Qed.

(** The loop over complete entries stores one key for each identifier. *)
Lemma range_Keys_complete ks : ∀ m,
  Forall complete_entry ks ->
  ∃ m', range_Keys ks m = inr m'
        ∧ dom m' = dom m ∪ list_to_set (jwk_KID <$> ks).
Proof.
  induction ks as [|k ks IH]; intros m Hall.
  - exists m. split; [reflexivity|]. simpl. set_solver.
  - inversion Hall as [|? ? Hk Hks]; subst.
    destruct (decode_jwk_complete k Hk) as [key Hkey].
    destruct (IH (<[jwk_KID k := key]> m) Hks) as (m' & Hrun & Hdom).
    exists m'. split.
    + simpl. rewrite Hkey. exact Hrun.
    + rewrite Hdom, dom_insert_L. rewrite fmap_cons. simpl. set_solver.
Qed.

(** The loop stops at the first entry that is not complete; when that entry
    lacks a field the error names it. *)
Lemma range_Keys_first_missing pre k post : ∀ m,
  Forall complete_entry pre -> missing_field k ->
  range_Keys (pre ++ k :: post) m = inl (ErrMissingInfo k).
Proof.
  induction pre as [|p pre IH]; intros m Hall Hmiss.
  - simpl. rewrite (decode_jwk_missing k Hmiss). reflexivity.
  - inversion Hall as [|? ? Hp Hpre]; subst.
    destruct (decode_jwk_complete p Hp) as [key Hkey].
    simpl. rewrite Hkey. apply IH; assumption.
Qed.

Lemma decode_jwk_stored k key : decode_jwk k = inr key -> complete_entry k.
Proof.
  unfold decode_jwk, complete_entry.
  destruct (String.eqb_spec (jwk_E k) "") as [|He]; [discriminate|].
  destruct (String.eqb_spec (jwk_N k) "") as [|Hn]; [discriminate|].
  destruct (String.eqb_spec (jwk_KID k) "") as [|Hkid]; [discriminate|].
  simpl.
  destruct (base64_DecodeString (jwk_N k)); [|discriminate].
  destruct (base64_DecodeString (jwk_E k)); [|discriminate].
  intros _. repeat split; eauto.
Qed.

(** An error of the loop is the error of the first entry that is not
    complete. *)
Lemma range_Keys_error ks : ∀ m e,
  range_Keys ks m = inl e ->
  ∃ pre k post, ks = (pre ++ k :: post)%list
                ∧ Forall complete_entry pre ∧ decode_jwk k = inl e.
Proof.
  induction ks as [|k ks IH]; intros m e; simpl; [discriminate|].
  destruct (decode_jwk k) as [e0|key] eqn:Hk.
  - intros [= <-]. exists [], k, ks. repeat split; [constructor|assumption].
  - intros Hrun. destruct (IH _ _ Hrun) as (pre & k' & post & -> & Hpre & Hk').
    exists (k :: pre), k', post. repeat split; [|assumption].
    constructor; [eapply decode_jwk_stored; eassumption|assumption].
Qed.

(** A list with an entry that lacks a field never gets through the loop. *)
Lemma range_Keys_some_missing ks : ∀ m,
  Exists missing_field ks -> ∃ e, range_Keys ks m = inl e.
Proof.
  induction ks as [|k ks IH]; intros m Hex.
  - inversion Hex.
  - simpl. destruct (decode_jwk k) as [e|key] eqn:Hk.
    + exists e. reflexivity.
    + apply IH. inversion Hex as [? ? Hmiss|? ? Htl]; subst; [|assumption].
      rewrite (decode_jwk_missing k Hmiss) in Hk. discriminate.
Qed.

(** [UpdatePublicKey] changes the state only when it returns nil. *)
Lemma UpdatePublicKey_error_state r expiration st e st' :
  UpdatePublicKey X r expiration st = (Some e, st') -> st' = st.
Proof.
  unfold UpdatePublicKey.
  destruct (parseJWKS X r); [intros [= _ <-]; reflexivity|].
  destruct (range_Keys _ _); [intros [= _ <-]; reflexivity|].
  destruct (_ =? _)%nat; [intros [= _ <-]; reflexivity|discriminate].
Qed.

(** Whether it returns an error, and which, depends on the document alone. *)
Lemma UpdatePublicKey_error_independent r expiration st expiration' st' :
  fst (UpdatePublicKey X r expiration st) = fst (UpdatePublicKey X r expiration' st').
Proof.
  unfold UpdatePublicKey.
  destruct (parseJWKS X r); [reflexivity|].
  destruct (range_Keys _ _); [reflexivity|].
  destruct (_ =? _)%nat; reflexivity.
Qed.

(** C9.  A document that parses, lists at least one entry, and has only
    complete entries whose numbers decode is accepted: [UpdatePublicKey]
    returns nil and the map it installs has exactly the identifiers of the
    document as keys. *)
Theorem UpdatePublicKey_identifier_set r expiration st entries :
  json_Decode_jwks X r = Some {| Keys := Some entries |} ->
  entries ≠ [] ->
  Forall complete_entry entries ->
  ∃ st', UpdatePublicKey X r expiration st = (None, st')
         ∧ dom (publicKeys (cache st')) = list_to_set (jwk_KID <$> entries)
         ∧ keyExpire (cache st') = expiration.
Proof.
  intros Hdoc Hne Hall.
  destruct (range_Keys_complete entries ∅ Hall) as (m & Hrun & Hdom).
  rewrite dom_empty_L, (left_id_L ∅ (∪)) in Hdom.
  assert (Hsize : (size m =? 0)%nat = false).
  { apply Nat.eqb_neq. intros Hz. apply map_size_empty_iff in Hz. subst m.
    rewrite dom_empty_L in Hdom. destruct entries as [|k ks]; [contradiction|].
    rewrite fmap_cons in Hdom. simpl in Hdom. set_solver. }
  eexists. unfold UpdatePublicKey, parseJWKS. rewrite Hdoc. simpl.
  rewrite Hrun, Hsize. split; [reflexivity|]. simpl. split; [exact Hdom|reflexivity].
Qed.

(** C8, amended.  [UpdatePublicKey] rejects, and leaves the state as it
    was: (a) a document with an entry that lacks a field, with the error of
    the first entry in the document that is not complete, which is the
    missing-field error when that entry is the one lacking a field and the
    base64 error of an earlier entry otherwise; (b) a document without a
    list of entries, or with an empty one; (c) a document that does not
    parse.  The errors of the three cases differ from one another. *)
Theorem UpdatePublicKey_rejections r expiration st :
  (∀ pre k post,
     json_Decode_jwks X r = Some {| Keys := Some (pre ++ k :: post)%list |} ->
     Forall complete_entry pre -> missing_field k ->
     UpdatePublicKey X r expiration st = (Some (ErrMissingInfo k), st))
  ∧ (∀ entries,
       json_Decode_jwks X r = Some {| Keys := Some entries |} ->
       Exists missing_field entries ->
       ∃ pre k post e,
         entries = (pre ++ k :: post)%list
         ∧ Forall complete_entry pre
         ∧ decode_jwk k = inl e ∧ entry_error e
         ∧ UpdatePublicKey X r expiration st = (Some e, st))
  ∧ (json_Decode_jwks X r = Some {| Keys := None |} ->
     UpdatePublicKey X r expiration st = (Some (ErrParseJWKS ErrEmptyKeyList), st))
  ∧ (json_Decode_jwks X r = Some {| Keys := Some [] |} ->
     UpdatePublicKey X r expiration st = (Some ErrNoPublicKeys, st))
  ∧ (json_Decode_jwks X r = None ->
     UpdatePublicKey X r expiration st = (Some (ErrParseJWKS ErrDecodeJson), st))
  ∧ (∀ e, entry_error e ->
       e ≠ ErrParseJWKS ErrEmptyKeyList ∧ e ≠ ErrNoPublicKeys
       ∧ e ≠ ErrParseJWKS ErrDecodeJson)
  ∧ ErrParseJWKS ErrEmptyKeyList ≠ ErrParseJWKS ErrDecodeJson
  ∧ ErrNoPublicKeys ≠ ErrParseJWKS ErrDecodeJson.
Proof.
  repeat split; try discriminate.
  - intros pre k post Hdoc Hpre Hmiss.
    unfold UpdatePublicKey, parseJWKS. rewrite Hdoc. simpl.
    rewrite (range_Keys_first_missing pre k post ∅ Hpre Hmiss). reflexivity.
  - intros entries Hdoc Hex.
    destruct (range_Keys_some_missing entries ∅ Hex) as (e & Hrun).
    destruct (range_Keys_error entries ∅ e Hrun) as (pre & k & post & -> & Hpre & Hk).
    exists pre, k, post, e. repeat split; try assumption.
    + eapply decode_jwk_error; eassumption.
    + unfold UpdatePublicKey, parseJWKS. rewrite Hdoc. simpl. rewrite Hrun.
      reflexivity.
  - intros Hdoc. unfold UpdatePublicKey, parseJWKS. rewrite Hdoc. reflexivity.
  - intros Hdoc. unfold UpdatePublicKey, parseJWKS. rewrite Hdoc. reflexivity.
  - intros Hdoc. unfold UpdatePublicKey, parseJWKS. rewrite Hdoc. reflexivity.
  - destruct e; simpl in H; try contradiction; discriminate.
  - destruct e; simpl in H; try contradiction; discriminate.
  - destruct e; simpl in H; try contradiction; discriminate.
Qed.

(** A call of [retrieveKey] calls the fetch function once or not at all. *)
Lemma retrieveKey_fetch_calls kid st :
  fetch_calls (snd (retrieveKey X wall_clock kid st)) =
    if Before (keyExpire (cache st)) (now_at_lookup wall_clock st)
    then S (fetch_calls st) else fetch_calls st.
Proof.
  unfold retrieveKey, now_at_lookup, UpdatePublicKey. simpl.
  destruct (Before _ _); [|reflexivity].
  destruct (keyFetcher _ _) as [[reader expires] [ferr|]]; [reflexivity|].
  destruct (parseJWKS X reader); [reflexivity|].
  destruct (range_Keys _ _); [reflexivity|].
  destruct (_ =? _)%nat; reflexivity.
Qed.

(** C2, amended.  [retrieveKey] invokes the fetch function exactly when the
    stored deadline lies strictly before the time it reads; a lookup made at
    the very instant of the deadline does not fetch. *)
Theorem retrieveKey_fetch_iff kid st :
  (fetch_invoked X wall_clock kid st
   ↔ keyExpire (cache st) < now_at_lookup wall_clock st)
  ∧ (now_at_lookup wall_clock st = keyExpire (cache st) ->
     fetch_calls (snd (retrieveKey X wall_clock kid st)) = fetch_calls st).
Proof.
  unfold fetch_invoked. rewrite retrieveKey_fetch_calls. unfold Before.
  destruct (Z.ltb_spec (keyExpire (cache st)) (now_at_lookup wall_clock st)).
  - split; [split; [lia|reflexivity]|lia].
  - split; [split; lia|reflexivity].
Qed.

(** C3.  When the refresh a lookup attempts fails, in the fetch or in
    decoding what was fetched, [retrieveKey] returns an error and no key,
    and the map and the deadline of the cache are the ones it had. *)
Theorem retrieveKey_refresh_failure kid st :
  refresh_fails X wall_clock st ->
  ∃ e, fst (retrieveKey X wall_clock kid st) = (None, Some e)
       ∧ ((∃ e', e = ErrFetchKey e') ∨ (∃ e', e = ErrUpdateKeyCache e'))
       ∧ publicKeys (cache (snd (retrieveKey X wall_clock kid st)))
         = publicKeys (cache st)
       ∧ keyExpire (cache (snd (retrieveKey X wall_clock kid st)))
         = keyExpire (cache st).
Proof.
  intros (Hstale & reader & expires & ferr & Hfetch & Hfail).
  unfold now_at_lookup in Hstale.
  unfold retrieveKey. simpl. rewrite Hstale, Hfetch.
  destruct ferr as [e'|].
  - exists (ErrFetchKey e'). simpl. eauto 6.
  - destruct Hfail as [Hfail|Hfail]; [contradiction|].
    match goal with
    | |- context [UpdatePublicKey X reader expires ?s] =>
        rewrite (UpdatePublicKey_error_independent reader expires st expires s)
          in Hfail;
        destruct (UpdatePublicKey X reader expires s) as [[e'|] st3] eqn:Hupd
    end.
    + apply UpdatePublicKey_error_state in Hupd. subst st3.
      exists (ErrUpdateKeyCache e'). simpl. eauto 6.
    + simpl in Hfail. contradiction.
Qed.

(** When the refresh check goes through, the lookup returns what the map
    then holds for the identifier, and a nil error. *)
Lemma retrieveKey_after_refresh_check kid st st' :
  refresh_check_passes X wall_clock st st' ->
  retrieveKey X wall_clock kid st = ((publicKeys (cache st') !! kid, None), st').
Proof.
  unfold refresh_check_passes, now_at_lookup, retrieveKey. simpl.
  intros [[Hfresh ->]|(Hstale & reader & expires & Hfetch & Hupd)].
  - rewrite Hfresh. reflexivity.
  - rewrite Hstale, Hfetch. unfold call_keyFetcher, time_Now in Hupd.
    simpl in Hupd. rewrite Hupd. reflexivity.
Qed.

(** Every lookup either fails in its refresh or gets through the check. *)
Lemma retrieveKey_refresh_cases st :
  refresh_fails X wall_clock st ∨ ∃ st', refresh_check_passes X wall_clock st st'.
Proof.
  unfold refresh_fails, refresh_check_passes.
  destruct (Before _ _) eqn:Hb; [|right; eexists; left; eauto].
  destruct (keyFetcher (cache st) (fetch_calls st)) as [[reader expires] ferr] eqn:Hf.
  destruct ferr as [e|].
  { left. split; [reflexivity|]. do 3 eexists. split; [reflexivity|].
    left. discriminate. }
  destruct (UpdatePublicKey X reader expires
              (snd (call_keyFetcher (snd (time_Now wall_clock st)))))
    as [[e|] st3] eqn:Hupd.
  - left. split; [reflexivity|]. do 3 eexists. split; [reflexivity|]. right.
    rewrite (UpdatePublicKey_error_independent reader expires st expires
               (snd (call_keyFetcher (snd (time_Now wall_clock st))))).
    rewrite Hupd. discriminate.
  - right. exists st3. right. split; [reflexivity|]. eauto.
Qed.

End KeyCache.

(** ** Properties of the verification pipeline *)

Section Pipeline.

Context (X : Externals) (wall_clock : nat -> Time).

Lemma eqb_string_true (a b : string) : a = b -> String.eqb a b = true.
Proof. apply String.eqb_eq. Qed.

Lemma eqb_string_false (a b : string) : a ≠ b -> String.eqb a b = false.
Proof. apply String.eqb_neq. Qed.

Lemma gtb_true (a b : Z) : a > b -> (a >? b) = true.
Proof. intros H. rewrite Z.gtb_ltb. apply Z.ltb_lt. lia. Qed.

Lemma gtb_false (a b : Z) : a <= b -> (a >? b) = false.
Proof. intros H. rewrite Z.gtb_ltb. apply Z.ltb_ge. lia. Qed.

(** A token that reaches the expiry check: the call is down to the two
    comparisons with the clock. *)
Lemma ParseAndVerify_at_expiry v tok st t st1 :
  reaches_expiry_check X wall_clock v tok st t st1 ->
  ParseAndVerify X wall_clock v tok st =
    if EXP (claims t) <=? now_at_expiry wall_clock st1 then
      ((None, Some ErrTokenExpired), snd (time_Now wall_clock st1))
    else if IAT (claims t) >? now_at_issued_at wall_clock st1 then
      ((None, Some ErrIssuedForFuture),
       snd (time_Now wall_clock (snd (time_Now wall_clock st1))))
    else ((Some t, None), snd (time_Now wall_clock (snd (time_Now wall_clock st1)))).
Proof.
  intros (p0 & p1 & p2 & key & Haud).
  destruct Haud as [[[[[[Hsplit Hdec] Halg] Hkey] Hsig] Hiss] Haud].
  unfold ParseAndVerify. red in Hsplit. rewrite Hsplit, Hdec.
  rewrite (eqb_string_true _ _ Halg). simpl negb. cbv iota.
  rewrite Hkey, Hsig.
  rewrite (eqb_string_true _ _ Hiss), (eqb_string_true _ _ Haud).
  reflexivity.
Qed.

(** [ParseAndVerify] hands out a token only together with a nil error. *)
Lemma ParseAndVerify_shape v tok st :
  (∃ e, fst (ParseAndVerify X wall_clock v tok st) = (None, Some e)) ∨
  (∃ t, fst (ParseAndVerify X wall_clock v tok st) = (Some t, None)).
Proof.
  unfold ParseAndVerify.
  destruct (strings_Split_dot tok) as [|p0 [|p1 [|p2 [|p3 l]]]];
    try (left; eexists; reflexivity).
  destruct (parseJWT X p0 p1 p2) as [e|t]; [left; eexists; reflexivity|].
  destruct (negb _); [left; eexists; reflexivity|].
  destruct (retrieveKey _ _ _ _) as [[key [e|]] st1];
    [left; eexists; reflexivity|].
  destruct key as [key|]; [|left; eexists; reflexivity].
  destruct (verifySignature _ _ _ _); [left; eexists; reflexivity|].
  destruct (negb _); [left; eexists; reflexivity|].
  destruct (negb _); [left; eexists; reflexivity|].
  simpl.
  destruct (_ <=? _); [left; eexists; reflexivity|].
  destruct (_ >? _); [left; eexists; reflexivity|].
  right; eexists; reflexivity.
Qed.

(** C10.  Whenever [ParseAndVerify] returns a non-nil error, the token it
    returns is nil, at whichever step the call ended. *)
Theorem ParseAndVerify_error_without_token v tok st :
  snd (fst (ParseAndVerify X wall_clock v tok st)) ≠ None -> fst (fst (ParseAndVerify X wall_clock v tok st)) = None.
Proof.
  intros Herr.
  destruct (ParseAndVerify_shape v tok st) as [[e He]|[t Ht]].
  - rewrite He. reflexivity.
  - rewrite Ht in Herr. contradiction.
Qed.

(** C5.  A token that reaches the expiry check is rejected as expired
    exactly when its expiry time is not strictly greater than the time read
    there; in particular when the two are equal. *)
Theorem ParseAndVerify_expired_iff v tok st t st1 :
  reaches_expiry_check X wall_clock v tok st t st1 ->
  (fst (ParseAndVerify X wall_clock v tok st) = (None, Some ErrTokenExpired)
   ↔ ¬ EXP (claims t) > now_at_expiry wall_clock st1)
  ∧ (EXP (claims t) = now_at_expiry wall_clock st1 ->
     fst (ParseAndVerify X wall_clock v tok st) = (None, Some ErrTokenExpired)).
Proof.
  intros Hreach. rewrite (ParseAndVerify_at_expiry _ _ _ _ _ Hreach).
  destruct (Z.leb_spec (EXP (claims t)) (now_at_expiry wall_clock st1)) as [Hle|Hgt].
  - split; [|reflexivity]. split; [lia|reflexivity].
  - split.
    + split; [|lia]. destruct (_ >? _); simpl; discriminate.
    + lia.
Qed.

(** C6.  A token that reaches the issued-at check is rejected as issued for
    a future time exactly when its issued-at time is strictly greater than
    the time read there; when the two are equal the check lets it through
    and the token is returned. *)
Theorem ParseAndVerify_issued_in_future_iff v tok st t st1 :
  reaches_issued_at_check X wall_clock v tok st t st1 ->
  (fst (ParseAndVerify X wall_clock v tok st) = (None, Some ErrIssuedForFuture)
   ↔ IAT (claims t) > now_at_issued_at wall_clock st1)
  ∧ (IAT (claims t) <= now_at_issued_at wall_clock st1 ->
     fst (ParseAndVerify X wall_clock v tok st) = (Some t, None)).
Proof.
  intros [Hreach Hexp]. rewrite (ParseAndVerify_at_expiry _ _ _ _ _ Hreach).
  destruct (Z.leb_spec (EXP (claims t)) (now_at_expiry wall_clock st1)) as [Hle|_];
    [lia|].
  destruct (Z_gt_le_dec (IAT (claims t)) (now_at_issued_at wall_clock st1)) as [Hgt|Hle].
  - rewrite (gtb_true _ _ Hgt). split; [|lia]. split; [lia|reflexivity].
  - rewrite (gtb_false _ _ Hle). split; [|reflexivity].
    split; [discriminate|lia].
Qed.

(** The state a lookup leaves has one more reading of the clock. *)
Lemma retrieveKey_clock_reads kid st r st1 :
  retrieveKey X wall_clock kid st = (r, st1) ->
  clock_reads st1 = (clock_reads st + 1)%nat.
Proof.
  unfold retrieveKey, UpdatePublicKey. simpl.
  destruct (Before _ _); [|intros [= _ <-]; simpl; lia].
  destruct (keyFetcher _ _) as [[reader expires] [ferr|]];
    [intros [= _ <-]; simpl; lia|].
  destruct (parseJWKS X reader); [intros [= _ <-]; simpl; lia|].
  destruct (range_Keys _ _); [intros [= _ <-]; simpl; lia|].
  destruct (_ =? _)%nat; intros [= _ <-]; simpl; lia.
Qed.

Ltac enter_pipeline Hsplit Hdec :=
  unfold ParseAndVerify; red in Hsplit; rewrite Hsplit, Hdec.

Ltac past_algorithm Hsplit Hdec Halg :=
  enter_pipeline Hsplit Hdec;
  rewrite (eqb_string_true _ _ Halg); simpl negb; cbv iota.

(** The failure of the first failing step is what the call returns. *)
Lemma first_failure_result v tok st s e st' :
  first_failure X wall_clock v tok st s e st' ->
  ParseAndVerify X wall_clock v tok st = ((None, Some e), st').
Proof.
  intros Hfail.
  destruct Hfail as
    [Hlen
    |p0 p1 p2 e Hsplit Hdec
    |p0 p1 p2 t [Hsplit Hdec] Halg
    |p0 p1 p2 t key e st1 [[Hsplit Hdec] Halg] Hkey
    |p0 p1 p2 t st1 [[Hsplit Hdec] Halg] Hkey
    |p0 p1 p2 t key st1 e [[[Hsplit Hdec] Halg] Hkey] Hsig
    |p0 p1 p2 t key st1 [[[[Hsplit Hdec] Halg] Hkey] Hsig] Hiss
    |p0 p1 p2 t key st1 [[[[[Hsplit Hdec] Halg] Hkey] Hsig] Hiss] Haud
    |t st1 Hreach Hexp
    |t st1 [Hreach Hexp] Hiat].
  - unfold ParseAndVerify.
    destruct (strings_Split_dot tok) as [|q0 [|q1 [|q2 [|q3 l]]]];
      try reflexivity.
    simpl in Hlen. contradiction.
  - enter_pipeline Hsplit Hdec. reflexivity.
  - enter_pipeline Hsplit Hdec. rewrite (eqb_string_false _ _ Halg). reflexivity.
  - past_algorithm Hsplit Hdec Halg. rewrite Hkey. reflexivity.
  - past_algorithm Hsplit Hdec Halg. rewrite Hkey. reflexivity.
  - past_algorithm Hsplit Hdec Halg. rewrite Hkey, Hsig. reflexivity.
  - past_algorithm Hsplit Hdec Halg. rewrite Hkey, Hsig.
    rewrite (eqb_string_false _ _ Hiss). reflexivity.
  - past_algorithm Hsplit Hdec Halg. rewrite Hkey, Hsig.
    rewrite (eqb_string_true _ _ Hiss), (eqb_string_false _ _ Haud). reflexivity.
  - rewrite (ParseAndVerify_at_expiry _ _ _ _ _ Hreach).
    destruct (Z.leb_spec (EXP (claims t)) (now_at_expiry wall_clock st1));
      [reflexivity|lia].
  - rewrite (ParseAndVerify_at_expiry _ _ _ _ _ Hreach).
    destruct (Z.leb_spec (EXP (claims t)) (now_at_expiry wall_clock st1));
      [lia|].
    rewrite (gtb_true _ _ Hiat). reflexivity.
Qed.

Lemma reaches_expiry_clock_reads v tok st t st1 :
  reaches_expiry_check X wall_clock v tok st t st1 ->
  clock_reads st1 = (clock_reads st + 1)%nat.
Proof.
  intros (p0 & p1 & p2 & key & Hp). destruct Hp as [[[[_ Hkey] _] _] _].
  eapply retrieveKey_clock_reads; eassumption.
Qed.

(** C1.  A token that passes every step before [s] and fails [s] is
    rejected with the error of [s], whatever the later steps would have
    said, and the call ends in the state [s] left: the clock has been read
    only by the steps up to [s], and when [s] comes before the key lookup
    the state is the initial one, so the cache was neither consulted nor
    refreshed and the fetch function was not called. *)
Theorem ParseAndVerify_earliest_failure v tok st s e st' :
  first_failure X wall_clock v tok st s e st' ->
  ParseAndVerify X wall_clock v tok st = ((None, Some e), st')
  ∧ clock_reads st' = (clock_reads st + clock_reads_through s)%nat
  ∧ (before_key s = true -> st' = st).
Proof.
  intros Hfail. split; [eapply first_failure_result; eassumption|].
  inversion Hfail; subst; simpl;
    repeat match goal with
    | H : passes_key _ _ _ _ _ _ _ _ _ _ |- _ => destruct H as [_ H]
    | H : passes_signature _ _ _ _ _ _ _ _ _ _ |- _ => destruct H as [H _]
    | H : passes_issuer _ _ _ _ _ _ _ _ _ _ _ |- _ => destruct H as [H _]
    | H : reaches_issued_at_check _ _ _ _ _ _ _ |- _ => destruct H as [H _]
    | H : reaches_expiry_check _ _ _ _ _ _ _ |- _ =>
        apply reaches_expiry_clock_reads in H
    | H : retrieveKey _ _ _ _ = _ |- _ => apply retrieveKey_clock_reads in H
    end;
    (split; [lia|first [reflexivity|discriminate]]).
Qed.

(** Conversely, every rejection is the failure of some step after all the
    steps before it passed. *)
Lemma ParseAndVerify_rejection_step v tok st tk e st' :
  ParseAndVerify X wall_clock v tok st = ((tk, Some e), st') ->
  ∃ s, first_failure X wall_clock v tok st s e st'.
Proof.
  unfold ParseAndVerify.
  destruct (strings_Split_dot tok) as [|p0 [|p1 [|p2 [|p3 l]]]] eqn:Hsplit;
    try (intros [= _ <- <-]; exists StepSplit; apply fail_split;
         rewrite Hsplit; simpl; lia).
  destruct (parseJWT X p0 p1 p2) as [e0|t] eqn:Hdec.
  { intros [= _ <- <-]. exists StepDecode. eapply fail_decode; eauto. }
  destruct (String.eqb_spec (ALG (header t)) "RS256") as [Halg|Halg]; simpl negb;
    cbv iota.
  2:{ intros [= _ <- <-]. exists StepAlgorithm.
      eapply fail_algorithm; [split|]; eauto. }
  assert (Hpa : passes_algorithm X tok p0 p1 p2 t) by (repeat split; assumption).
  destruct (retrieveKey X wall_clock (KID (header t)) st) as [[key [e0|]] st1] eqn:Hkey.
  { intros [= _ <- <-]. exists StepKey. eapply fail_key_error; eauto. }
  destruct key as [key|].
  2:{ intros [= _ <- <-]. exists StepKey. eapply fail_key_missing; eauto. }
  assert (Hpk : passes_key X wall_clock tok p0 p1 p2 t st key st1) by (split; assumption).
  destruct (verifySignature X (strings_Join_dot p0 p1) p2 key) as [e0|] eqn:Hsig.
  { intros [= _ <- <-]. exists StepSignature. eapply fail_signature; eauto. }
  assert (Hps : passes_signature X wall_clock tok p0 p1 p2 t st key st1)
    by (split; assumption).
  destruct (String.eqb_spec (ISS (claims t)) (issuer v)) as [Hiss|Hiss]; simpl negb;
    cbv iota.
  2:{ intros [= _ <- <-]. exists StepIssuer. eapply fail_issuer; eauto. }
  assert (Hpi : passes_issuer X wall_clock v tok p0 p1 p2 t st key st1)
    by (split; assumption).
  destruct (String.eqb_spec (AUD (claims t)) (clientID v)) as [Haud|Haud]; simpl negb;
    cbv iota.
  2:{ intros [= _ <- <-]. exists StepAudience. eapply fail_audience; eauto. }
  assert (Hreach : reaches_expiry_check X wall_clock v tok st t st1).
  { exists p0, p1, p2, key. split; assumption. }
  simpl.
  destruct (Z.leb_spec (EXP (claims t)) (Unix (wall_clock (clock_reads st1))))
    as [Hexp|Hexp].
  { intros [= _ <- <-]. exists StepExpiry. apply (fail_expiry _ _ _ _ _ t st1); auto. }
  destruct (IAT (claims t) >? Unix (wall_clock (S (clock_reads st1)))) eqn:Hiat;
    [|discriminate].
  intros [= _ <- <-]. exists StepIssuedAt.
  apply (fail_issued_at _ _ _ _ _ t st1).
  - split; [assumption|]. unfold now_at_expiry. lia.
  - unfold now_at_issued_at. rewrite Z.gtb_ltb in Hiat. apply Z.ltb_lt in Hiat. lia.
Qed.

(** A lookup whose refresh fails returns an error and no key. *)
Lemma retrieveKey_fails_with kid st :
  refresh_fails X wall_clock st ->
  ∃ e st1, retrieveKey X wall_clock kid st = ((None, Some e), st1).
Proof.
  intros (Hstale & reader & expires & ferr & Hfetch & Hfail).
  unfold now_at_lookup in Hstale.
  unfold retrieveKey. simpl. rewrite Hstale, Hfetch.
  destruct ferr as [e'|]; [eauto|].
  destruct Hfail as [Hfail|Hfail]; [contradiction|].
  match goal with
  | |- context [UpdatePublicKey X reader expires ?s] =>
      rewrite (UpdatePublicKey_error_independent X reader expires st expires s)
        in Hfail;
      destruct (UpdatePublicKey X reader expires s) as [[e'|] st3] eqn:Hupd
  end.
  - eauto.
  - simpl in Hfail. contradiction.
Qed.

(** C7.  When the refresh check of the lookup goes through and the map then
    current has no entry for the identifier, [retrieveKey] returns a nil key
    and a nil error, and [ParseAndVerify] turns that into the error for a
    key that was not found.  In a state where the refresh fails instead, the
    lookup returns an error, [ParseAndVerify] wraps it, and the rejection is
    not the one for a key that was not found. *)
Theorem retrieveKey_absent_key kid st st' :
  refresh_check_passes X wall_clock st st' ->
  publicKeys (cache st') !! kid = None ->
  retrieveKey X wall_clock kid st = ((None, None), st')
  ∧ (∀ v tok p0 p1 p2 t,
       passes_algorithm X tok p0 p1 p2 t -> KID (header t) = kid ->
       ParseAndVerify X wall_clock v tok st = ((None, Some ErrKeyNotFound), st')
       ∧ ∀ st0,
           refresh_fails X wall_clock st0 ->
           ∃ e st1,
             retrieveKey X wall_clock kid st0 = ((None, Some e), st1)
             ∧ ParseAndVerify X wall_clock v tok st0
               = ((None, Some (ErrRetrieveKey e)), st1)
             ∧ fst (ParseAndVerify X wall_clock v tok st0)
               ≠ fst (ParseAndVerify X wall_clock v tok st)).
Proof.
  intros Hcheck Habsent.
  pose proof (retrieveKey_after_refresh_check X wall_clock kid st st' Hcheck) as Hret.
  rewrite Habsent in Hret. split; [exact Hret|].
  intros v tok p0 p1 p2 t Hpa <-.
  assert (Hfound : ParseAndVerify X wall_clock v tok st
                   = ((None, Some ErrKeyNotFound), st')).
  { apply (first_failure_result v tok st StepKey).
    eapply fail_key_missing; eauto. }
  split; [exact Hfound|].
  intros st0 Hfails.
  destruct (retrieveKey_fails_with (KID (header t)) st0 Hfails) as (e & st1 & Hkey).
  assert (Hwrapped : ParseAndVerify X wall_clock v tok st0
                     = ((None, Some (ErrRetrieveKey e)), st1)).
  { apply (first_failure_result v tok st0 StepKey).
    eapply fail_key_error; eauto. }
  exists e, st1. split; [exact Hkey|]. split; [exact Hwrapped|].
  rewrite Hwrapped, Hfound. simpl. discriminate.
Qed.

(** [parseJWT] stores the third segment and does not look at it. *)
Lemma parseJWT_signature p0 p1 sig :
  match parseJWT X p0 p1 sig with
  | inl e => ∀ sig', parseJWT X p0 p1 sig' = inl e
  | inr t => Signature t = sig
  end.
Proof.
  unfold parseJWT.
  destruct (base64_DecodeString p0); [|reflexivity].
  destruct (json_Unmarshal_Header X _); [|reflexivity].
  destruct (base64_DecodeString p1); [|reflexivity].
  destruct (json_Unmarshal_Claims X _); reflexivity.
Qed.

(** A token that is returned is the one [parseJWT] made. *)
Lemma ParseAndVerify_returns_decoded v tok st p0 p1 p2 t t' st' :
  strings_Split_dot tok = [p0; p1; p2] ->
  parseJWT X p0 p1 p2 = inr t ->
  ParseAndVerify X wall_clock v tok st = ((Some t', None), st') ->
  t' = t.
Proof.
  intros Hsplit Hdec. unfold ParseAndVerify. rewrite Hsplit, Hdec.
  destruct (negb _); [discriminate|].
  destruct (retrieveKey _ _ _ _) as [[key [e|]] st1]; [discriminate|].
  destruct key as [key|]; [|discriminate].
  destruct (verifySignature _ _ _ _); [discriminate|].
  destruct (negb _); [discriminate|].
  destruct (negb _); [discriminate|].
  simpl.
  destruct (_ <=? _); [discriminate|].
  destruct (_ >? _); [discriminate|].
  intros [= <- _]. reflexivity.
Qed.

(** C4.  A token of three segments whose third segment is empty is not
    rejected as malformed.  If header or claims do not decode, the call
    returns the decoding error, which is the one any third segment would
    give.  If they decode, the decoded token carries the empty signature and
    the call goes on: it either returns that token or rejects it at a step
    after decoding. *)
Theorem ParseAndVerify_empty_signature v tok st p0 p1 :
  strings_Split_dot tok = [p0; p1; ""] ->
  (∀ e, snd (fst (ParseAndVerify X wall_clock v tok st)) = Some e ->
        ∀ s, e ≠ ErrMalformedToken s)
  ∧ (∀ e, parseJWT X p0 p1 "" = inl e ->
       (∀ sig, parseJWT X p0 p1 sig = inl e)
       ∧ ParseAndVerify X wall_clock v tok st
         = ((None, Some (ErrDecodeToken [p0; p1; ""] e)), st))
  ∧ (∀ t, parseJWT X p0 p1 "" = inr t ->
       Signature t = ""
       ∧ (fst (ParseAndVerify X wall_clock v tok st) = (Some t, None)
          ∨ ∃ s e,
              fst (ParseAndVerify X wall_clock v tok st) = (None, Some e)
              ∧ first_failure X wall_clock v tok st s e
                  (snd (ParseAndVerify X wall_clock v tok st))
              ∧ s ≠ StepSplit ∧ s ≠ StepDecode)).
Proof.
  intros Hsplit.
  assert (Hstep : ∀ e, snd (fst (ParseAndVerify X wall_clock v tok st)) = Some e ->
            ∃ s, first_failure X wall_clock v tok st s e
                   (snd (ParseAndVerify X wall_clock v tok st))).
  { intros e He.
    destruct (ParseAndVerify X wall_clock v tok st) as [[tk err] st'] eqn:Hpv.
    simpl in He. subst err. eapply ParseAndVerify_rejection_step; eauto. }
  split; [|split].
  - intros e He s0 ->. destruct (Hstep _ He) as [s Hs].
    inversion Hs; subst. rewrite Hsplit in *. simpl in *. lia.
  - intros e Hdec. split.
    + intros sig. pose proof (parseJWT_signature p0 p1 "") as H.
      rewrite Hdec in H. apply H.
    + apply (first_failure_result v tok st StepDecode).
      apply fail_decode; assumption.
  - intros t Hdec. split.
    + pose proof (parseJWT_signature p0 p1 "") as H. rewrite Hdec in H. exact H.
    + destruct (ParseAndVerify_shape v tok st) as [[e He]|[t' Ht']].
      * right. assert (Herr : snd (fst (ParseAndVerify X wall_clock v tok st)) = Some e)
          by (rewrite He; reflexivity).
        destruct (Hstep _ Herr) as [s Hs]. exists s, e.
        split; [exact He|]. split; [exact Hs|].
        split; intros ->; inversion Hs; subst.
        -- rewrite Hsplit in *. simpl in *. lia.
        -- match goal with
           | H : passes_split _ _ _ _ |- _ => red in H; rewrite Hsplit in H;
               injection H as <- <- <-
           end.
           congruence.
      * left. rewrite Ht'. f_equal. f_equal.
        destruct (ParseAndVerify X wall_clock v tok st) as [[tk err] st'] eqn:Hpv.
        simpl in Ht'. injection Ht' as -> ->.
        eapply ParseAndVerify_returns_decoded; eassumption.
Qed.

End Pipeline.

(** ** The properties at concrete inputs *)

Example demo_no_signature :
  fst (Demo.run Demo.no_signature Demo.fresh)
  = (None, Some (ErrVerifySignature ErrVerificationFailed)).
Proof. vm_compute. reflexivity. Qed.

Example superseded_no_signature :
  Superseded.malformed (strings_Split_dot Demo.no_signature) = true.
Proof. reflexivity. Qed.

Example demo_first_defect :
  UpdatePublicKey Demo.externals "Jbad" (Demo.seconds 9000) Demo.fresh
  = (Some (ErrBase64N "!"), Demo.fresh).
Proof. vm_compute. reflexivity. Qed.

Example demo_refresh :
  snd (retrieveKey Demo.externals Demo.clock "k2" Demo.stale)
  = {| cache := {| keyFetcher := Demo.fetch "J2" (Demo.seconds 9000);
                   publicKeys := {[ "k1" := Demo.key1;
                                    "k2" := {| pk_N := 13940693; pk_E := 65537 |} ]};
                   keyExpire := Demo.seconds 9000 |};
       clock_reads := 1;
       fetch_calls := 1 |}.
Proof. vm_compute. reflexivity. Qed.

(** C1 at a token that has the wrong algorithm, a foreign issuer and
    audience, and is expired, presented to a stale cache: the algorithm is
    reported and the cache is not refreshed. *)
Lemma ParseAndVerify_earliest_failure_witness :
  first_failure Demo.externals Demo.clock Demo.verifier
    Demo.wrong_algorithm_and_claims Demo.stale
    StepAlgorithm (ErrExpectedRS256 "HS256") Demo.stale
  ∧ ParseAndVerify Demo.externals Demo.clock Demo.verifier
      Demo.wrong_algorithm_and_claims Demo.stale
    = ((None, Some (ErrExpectedRS256 "HS256")), Demo.stale).
Proof.
  assert (Hfail : first_failure Demo.externals Demo.clock Demo.verifier
                    Demo.wrong_algorithm_and_claims Demo.stale
                    StepAlgorithm (ErrExpectedRS256 "HS256") Demo.stale).
  { apply (fail_algorithm Demo.externals Demo.clock Demo.verifier
             Demo.wrong_algorithm_and_claims Demo.stale "SDI" "QzI" "x"
             {| header := Demo.mkHeader "HS256" "k1";
                claims := Demo.mkClaims "https://accounts.example.com"
                            "client-999" 5000 10;
                Signature := "x" |}).
    - split; reflexivity.
    - simpl. discriminate. }
  split; [exact Hfail|].
  exact (proj1 (ParseAndVerify_earliest_failure Demo.externals Demo.clock
                  Demo.verifier Demo.wrong_algorithm_and_claims Demo.stale
                  StepAlgorithm _ Demo.stale Hfail)).
Defined.

(** C2 as worded fails when the lookup is made at the very instant of the
    deadline: the deadline is reached and nothing is fetched. *)
Lemma fetch_at_deadline_counterexample :
  ¬ fetch_at_or_after_deadline Demo.externals Demo.clock "k1" Demo.at_deadline.
Proof.
  unfold fetch_at_or_after_deadline, fetch_invoked. intros [_ Hfetch].
  assert (Hnow : now_at_lookup Demo.clock Demo.at_deadline
                 >= keyExpire (cache Demo.at_deadline)).
  { vm_compute. discriminate. }
  apply Hfetch in Hnow. vm_compute in Hnow. discriminate.
Qed.

Lemma retrieveKey_fetch_iff_witness :
  fetch_invoked Demo.externals Demo.clock "k1" Demo.stale
  ∧ fetch_calls (snd (retrieveKey Demo.externals Demo.clock "k1" Demo.at_deadline))
    = fetch_calls Demo.at_deadline.
Proof.
  split.
  - apply (proj1 (retrieveKey_fetch_iff Demo.externals Demo.clock "k1" Demo.stale)).
    vm_compute. reflexivity.
  - apply (proj2 (retrieveKey_fetch_iff Demo.externals Demo.clock "k1"
                    Demo.at_deadline)).
    vm_compute. reflexivity.
Defined.

(** C3 at a stale cache whose fetched document lists no key. *)
Lemma retrieveKey_refresh_failure_witness :
  refresh_fails Demo.externals Demo.clock Demo.stale_empty_set
  ∧ ∃ e, fst (retrieveKey Demo.externals Demo.clock "k1" Demo.stale_empty_set)
         = (None, Some e)
       ∧ ((∃ e', e = ErrFetchKey e') ∨ (∃ e', e = ErrUpdateKeyCache e'))
       ∧ publicKeys (cache (snd (retrieveKey Demo.externals Demo.clock "k1"
                                   Demo.stale_empty_set)))
         = publicKeys (cache Demo.stale_empty_set)
       ∧ keyExpire (cache (snd (retrieveKey Demo.externals Demo.clock "k1"
                                  Demo.stale_empty_set)))
         = keyExpire (cache Demo.stale_empty_set).
Proof.
  assert (Hfails : refresh_fails Demo.externals Demo.clock Demo.stale_empty_set).
  { split; [reflexivity|].
    exists "J0", (Demo.seconds 9000), None. split; [reflexivity|].
    right. simpl. discriminate. }
  split; [exact Hfails|].
  exact (retrieveKey_refresh_failure Demo.externals Demo.clock "k1"
           Demo.stale_empty_set Hfails).
Defined.

(** C4 at a token whose third segment is empty: it decodes, keeps the empty
    signature and is rejected by the signature check. *)
Lemma ParseAndVerify_empty_signature_witness :
  let t := {| header := Demo.mkHeader "RS256" "k1";
              claims := Demo.mkClaims Demo.google "client-123" 1490 2000;
              Signature := "" |} in
  strings_Split_dot Demo.no_signature = ["SDE"; "QzE"; ""]
  ∧ parseJWT Demo.externals "SDE" "QzE" "" = inr t
  ∧ (fst (ParseAndVerify Demo.externals Demo.clock Demo.verifier
            Demo.no_signature Demo.fresh) = (Some t, None)
     ∨ ∃ s e,
         fst (ParseAndVerify Demo.externals Demo.clock Demo.verifier
                Demo.no_signature Demo.fresh) = (None, Some e)
         ∧ first_failure Demo.externals Demo.clock Demo.verifier
             Demo.no_signature Demo.fresh s e
             (snd (ParseAndVerify Demo.externals Demo.clock Demo.verifier
                     Demo.no_signature Demo.fresh))
         ∧ s ≠ StepSplit ∧ s ≠ StepDecode).
Proof.
  intros t. split; [reflexivity|]. split; [reflexivity|].
  exact (proj2 (proj2 (proj2 (ParseAndVerify_empty_signature Demo.externals
                                Demo.clock Demo.verifier Demo.no_signature
                                Demo.fresh "SDE" "QzE" eq_refl)) t eq_refl)).
Defined.

Lemma demo_reaches_expiry (tok p0 p1 p2 : string) (t : JWT) :
  strings_Split_dot tok = [p0; p1; p2] ->
  parseJWT Demo.externals p0 p1 p2 = inr t ->
  ALG (header t) = "RS256" ->
  retrieveKey Demo.externals Demo.clock (KID (header t)) Demo.fresh
    = ((Some Demo.key1, None), snd (time_Now Demo.clock Demo.fresh)) ->
  verifySignature Demo.externals (strings_Join_dot p0 p1) p2 Demo.key1 = None ->
  ISS (claims t) = issuer Demo.verifier ->
  AUD (claims t) = clientID Demo.verifier ->
  reaches_expiry_check Demo.externals Demo.clock Demo.verifier tok Demo.fresh t
    (snd (time_Now Demo.clock Demo.fresh)).
Proof.
  intros. exists p0, p1, p2, Demo.key1. repeat split; assumption.
Defined.

(** C5 at a token whose expiry is the second the clock shows. *)
Lemma ParseAndVerify_expired_iff_witness :
  let t := {| header := Demo.mkHeader "RS256" "k1";
              claims := Demo.mkClaims Demo.google "client-123" 1500 1500;
              Signature := "U0RFLlF6TQ" |} in
  let st1 := snd (time_Now Demo.clock Demo.fresh) in
  reaches_expiry_check Demo.externals Demo.clock Demo.verifier
    Demo.expiring_now Demo.fresh t st1
  ∧ EXP (claims t) = now_at_expiry Demo.clock st1
  ∧ fst (ParseAndVerify Demo.externals Demo.clock Demo.verifier
           Demo.expiring_now Demo.fresh) = (None, Some ErrTokenExpired).
Proof.
  intros t st1.
  assert (Hreach : reaches_expiry_check Demo.externals Demo.clock Demo.verifier
                     Demo.expiring_now Demo.fresh t st1).
  { apply (demo_reaches_expiry Demo.expiring_now "SDE" "QzM" "U0RFLlF6TQ" t);
      reflexivity. }
  split; [exact Hreach|]. split; [reflexivity|].
  apply (proj2 (ParseAndVerify_expired_iff Demo.externals Demo.clock
                  Demo.verifier Demo.expiring_now Demo.fresh t st1 Hreach)).
  reflexivity.
Defined.

(** C6 at a token issued at the second the clock shows. *)
Lemma ParseAndVerify_issued_in_future_iff_witness :
  let t := {| header := Demo.mkHeader "RS256" "k1";
              claims := Demo.mkClaims Demo.google "client-123" 1500 2000;
              Signature := "U0RFLlF6UQ" |} in
  let st1 := snd (time_Now Demo.clock Demo.fresh) in
  reaches_issued_at_check Demo.externals Demo.clock Demo.verifier
    Demo.issued_now Demo.fresh t st1
  ∧ IAT (claims t) = now_at_issued_at Demo.clock st1
  ∧ fst (ParseAndVerify Demo.externals Demo.clock Demo.verifier
           Demo.issued_now Demo.fresh) = (Some t, None).
Proof.
  intros t st1.
  assert (Hreach : reaches_issued_at_check Demo.externals Demo.clock Demo.verifier
                     Demo.issued_now Demo.fresh t st1).
  { split.
    - apply (demo_reaches_expiry Demo.issued_now "SDE" "QzQ" "U0RFLlF6UQ" t);
        reflexivity.
    - reflexivity. }
  split; [exact Hreach|]. split; [reflexivity|].
  apply (proj2 (ParseAndVerify_issued_in_future_iff Demo.externals Demo.clock
                  Demo.verifier Demo.issued_now Demo.fresh t st1 Hreach)).
  vm_compute. discriminate.
Defined.

(** C7 at a token whose header names a key the fresh cache does not hold,
    and at the same token when the cache is stale and the fetch fails. *)
Lemma retrieveKey_absent_key_witness :
  let st' := snd (time_Now Demo.clock Demo.fresh) in
  refresh_check_passes Demo.externals Demo.clock Demo.fresh st'
  ∧ publicKeys (cache st') !! "k9" = None
  ∧ refresh_fails Demo.externals Demo.clock Demo.stale_fetch_fails
  ∧ retrieveKey Demo.externals Demo.clock "k9" Demo.fresh = ((None, None), st')
  ∧ ParseAndVerify Demo.externals Demo.clock Demo.verifier Demo.unknown_kid
      Demo.fresh = ((None, Some ErrKeyNotFound), st')
  ∧ ∃ e st1,
      retrieveKey Demo.externals Demo.clock "k9" Demo.stale_fetch_fails
      = ((None, Some e), st1)
      ∧ ParseAndVerify Demo.externals Demo.clock Demo.verifier Demo.unknown_kid
          Demo.stale_fetch_fails = ((None, Some (ErrRetrieveKey e)), st1)
      ∧ fst (ParseAndVerify Demo.externals Demo.clock Demo.verifier
               Demo.unknown_kid Demo.stale_fetch_fails)
        ≠ fst (ParseAndVerify Demo.externals Demo.clock Demo.verifier
                 Demo.unknown_kid Demo.fresh).
Proof.
  intros st'.
  assert (Hcheck : refresh_check_passes Demo.externals Demo.clock Demo.fresh st').
  { left. split; reflexivity. }
  assert (Habsent : publicKeys (cache st') !! "k9" = None) by reflexivity.
  assert (Hfails : refresh_fails Demo.externals Demo.clock Demo.stale_fetch_fails).
  { split; [reflexivity|].
    exists "", zeroTime, (Some (ErrFetcher "request - timeout")).
    split; [reflexivity|]. left. discriminate. }
  pose proof (retrieveKey_absent_key Demo.externals Demo.clock "k9" Demo.fresh
                st' Hcheck Habsent) as (Hret & Hpv).
  destruct (Hpv Demo.verifier Demo.unknown_kid "SDM" "QzE" "U0RNLlF6RQ"
              {| header := Demo.mkHeader "RS256" "k9";
                 claims := Demo.mkClaims Demo.google "client-123" 1490 2000;
                 Signature := "U0RNLlF6RQ" |})
    as (Hfound & Hother).
  - repeat split; reflexivity.
  - reflexivity.
  - split; [exact Hcheck|]. split; [exact Habsent|]. split; [exact Hfails|].
    split; [exact Hret|]. split; [exact Hfound|].
    exact (Hother Demo.stale_fetch_fails Hfails).
Defined.

(** C8 as worded fails for a document whose first entry has a modulus that
    is not base64url and whose second entry lacks its fields: the error is
    the one for the modulus. *)
Lemma missing_field_reported_counterexample :
  ¬ missing_field_reported Demo.externals "Jbad" (Demo.seconds 9000) Demo.fresh.
Proof.
  intros Hclaim.
  destruct (Hclaim [Demo.entry "!" "AQAB" "k0"; Demo.entry "" "" ""] eq_refl)
    as [k Hk].
  - apply Exists_cons_tl, Exists_cons_hd. left. reflexivity.
  - vm_compute in Hk. discriminate.
Qed.

Lemma UpdatePublicKey_rejections_witness :
  UpdatePublicKey Demo.externals "Jmiss" (Demo.seconds 9000) Demo.fresh
  = (Some (ErrMissingInfo (Demo.entry "u1SU" "" "k1")), Demo.fresh)
  ∧ UpdatePublicKey Demo.externals "J0" (Demo.seconds 9000) Demo.fresh
    = (Some ErrNoPublicKeys, Demo.fresh)
  ∧ UpdatePublicKey Demo.externals "not json" (Demo.seconds 9000) Demo.fresh
    = (Some (ErrParseJWKS ErrDecodeJson), Demo.fresh).
Proof.
  split; [|split].
  - apply (proj1 (UpdatePublicKey_rejections Demo.externals "Jmiss"
                    (Demo.seconds 9000) Demo.fresh)
             [] (Demo.entry "u1SU" "" "k1") []).
    + reflexivity.
    + constructor.
    + right. right. reflexivity.
  - apply (UpdatePublicKey_rejections Demo.externals "J0" (Demo.seconds 9000)
             Demo.fresh).
    reflexivity.
  - apply (UpdatePublicKey_rejections Demo.externals "not json"
             (Demo.seconds 9000) Demo.fresh).
    reflexivity.
Defined.

(** C9 at a document with two complete entries. *)
Lemma UpdatePublicKey_identifier_set_witness :
  let entries := [Demo.entry "u1SU" "AQAB" "k1"; Demo.entry "1LfV" "AQAB" "k2"] in
  json_Decode_jwks Demo.externals "J2" = Some {| Keys := Some entries |}
  ∧ Forall complete_entry entries
  ∧ ∃ st', UpdatePublicKey Demo.externals "J2" (Demo.seconds 9000) Demo.stale
           = (None, st')
         ∧ dom (publicKeys (cache st')) = list_to_set (jwk_KID <$> entries)
         ∧ keyExpire (cache st') = Demo.seconds 9000.
Proof.
  intros entries.
  assert (Hall : Forall complete_entry entries).
  { repeat constructor; simpl; try discriminate; eexists; vm_compute; reflexivity. }
  split; [reflexivity|]. split; [exact Hall|].
  apply (UpdatePublicKey_identifier_set Demo.externals "J2" (Demo.seconds 9000)
           Demo.stale entries).
  - reflexivity.
  - discriminate.
  - exact Hall.
Defined.

(** C10 at a token that decodes, is signed, and names a foreign issuer. *)
Lemma ParseAndVerify_error_without_token_witness :
  snd (fst (ParseAndVerify Demo.externals Demo.clock Demo.verifier
              Demo.wrong_issuer Demo.fresh)) = Some ErrInvalidIssuer
  ∧ fst (fst (ParseAndVerify Demo.externals Demo.clock Demo.verifier
                Demo.wrong_issuer Demo.fresh)) = None.
Proof.
  split; [reflexivity|].
  apply (ParseAndVerify_error_without_token Demo.externals Demo.clock
           Demo.verifier Demo.wrong_issuer Demo.fresh).
  vm_compute. discriminate.
Defined.

(** ** Further properties: splitting a token *)

Section Splitting.

Lemma split_sep_nonempty c s : split_sep c s ≠ [].
Proof.
  destruct s as [|a s]; simpl; [discriminate|].
  destruct (Ascii.eqb a c); [discriminate|].
  destruct (split_sep c s); discriminate.
Qed.

Lemma split_sep_length c s : length (split_sep c s) = S (count_char c s).
Proof.
  induction s as [|a s IH]; simpl; [reflexivity|].
  destruct (Ascii.eqb a c); simpl; [rewrite IH; reflexivity|].
  destruct (split_sep c s) as [|p ps] eqn:Hs; simpl in *; [discriminate|].
  exact IH.
Qed.

Lemma split_sep_join c s : strings_Join (split_sep c s) (String c "") = s.
Proof.
  induction s as [|a s IH]; simpl; [reflexivity|].
  destruct (Ascii.eqb_spec a c) as [->|Hne].
  - pose proof (split_sep_nonempty c s) as Hn.
    destruct (split_sep c s) as [|p ps]; [contradiction|].
    simpl in *. rewrite IH. reflexivity.
  - pose proof (split_sep_nonempty c s) as Hn.
    destruct (split_sep c s) as [|p ps]; [contradiction|].
    destruct ps as [|q ps]; simpl in *; rewrite <- IH; reflexivity.
Qed.

Lemma split_sep_free c s : Forall (free_of c) (split_sep c s).
Proof.
  induction s as [|a s IH]; simpl.
  - repeat constructor.
  - destruct (Ascii.eqb a c) eqn:Hac.
    + constructor; [reflexivity|assumption].
    + destruct (split_sep c s) as [|p ps].
      * repeat constructor. unfold free_of. simpl. rewrite Hac. reflexivity.
      * inversion IH; subst. constructor; [|assumption].
        unfold free_of in *. simpl. rewrite Hac. assumption.
Qed.

Lemma split_sep_free_piece c p : free_of c p -> split_sep c p = [p].
Proof.
  unfold free_of. induction p as [|a p IH]; simpl; [reflexivity|].
  destruct (Ascii.eqb a c); [discriminate|].
  intros H. rewrite (IH H). reflexivity.
Qed.

Lemma split_sep_app c p rest :
  free_of c p -> split_sep c (p +:+ String c rest) = p :: split_sep c rest.
Proof.
  unfold free_of. induction p as [|a p IH]; simpl.
  - intros _. rewrite Ascii.eqb_refl. reflexivity.
  - destruct (Ascii.eqb a c); [discriminate|].
    intros H. rewrite (IH H). reflexivity.
Qed.

Lemma append_assoc_string (a b c : string) : (a +:+ b) +:+ c = a +:+ (b +:+ c).
Proof.
  induction a as [|x a IH]; [reflexivity|].
  change (String x ((a +:+ b) +:+ c) = String x (a +:+ (b +:+ c))).
  rewrite IH. reflexivity.
Qed.

(** X3.  A string splits into exactly the three segments [p0], [p1], [p2]
    if and only if it is [p0.p1.p2] and no segment contains a dot; so the
    signed text [p0.p1] followed by a dot and the signature is the token
    itself. *)
Theorem strings_Split_dot_three tok p0 p1 p2 :
  strings_Split_dot tok = [p0; p1; p2]
  ↔ tok = strings_Join_dot p0 p1 +:+ String dot p2
    ∧ free_of dot p0 ∧ free_of dot p1 ∧ free_of dot p2.
Proof.
  unfold strings_Split_dot, strings_Join_dot.
  rewrite append_assoc_string.
  change (String dot p1 +:+ String dot p2) with (String dot (p1 +:+ String dot p2)).
  split.
  - intros Hsplit.
    pose proof (split_sep_join dot tok) as Hjoin.
    pose proof (split_sep_free dot tok) as Hfree.
    rewrite Hsplit in Hjoin, Hfree. simpl in Hjoin.
    apply Forall_cons in Hfree as [H0 Hfree].
    apply Forall_cons in Hfree as [H1 Hfree].
    apply Forall_cons in Hfree as [H2 _].
    repeat split; try assumption. symmetry. exact Hjoin.
  - intros (-> & H0 & H1 & H2).
    rewrite (split_sep_app dot p0 _ H0), (split_sep_app dot p1 _ H1).
    rewrite (split_sep_free_piece dot p2 H2). reflexivity.
Qed.

End Splitting.

(** ** Further properties: the key-set decoder *)

Section Decoder.

Context (X : Externals).

Lemma byte_of_range v shift : 0 <= byte_of v shift < 256.
Proof.
  unfold byte_of. change 255 with (Z.ones 8). rewrite Z.land_ones by lia.
  change (2 ^ 8) with 256. apply Z.mod_pos_bound. lia.
Qed.

Lemma quanta_bytes_upto n : ∀ l bs,
  (length l <= n)%nat -> quanta l = Some bs -> Forall is_byte bs.
Proof.
  induction n as [|n IH]; intros l bs Hlen.
  - destruct l; [|simpl in Hlen; lia]. intros [= <-]. constructor.
  - destruct l as [|a [|b [|c [|d rest]]]]; simpl.
    + intros [= <-]. constructor.
    + discriminate.
    + intros [= <-]. repeat constructor; apply byte_of_range.
    + intros [= <-]. repeat constructor; apply byte_of_range.
    + destruct (quanta rest) as [tl|] eqn:Hrest; [|discriminate].
      simpl. intros [= <-].
      repeat (constructor; [apply byte_of_range|]).
      apply (IH rest); [simpl in Hlen; lia|exact Hrest].
Qed.

Lemma quanta_bytes l bs : quanta l = Some bs -> Forall is_byte bs.
Proof. apply (quanta_bytes_upto (length l)). lia. Qed.

Lemma base64_DecodeString_bytes s bs :
  base64_DecodeString s = Some bs -> Forall is_byte bs.
Proof.
  unfold base64_DecodeString. destruct (sextets s) as [l|]; [|discriminate].
  simpl. apply quanta_bytes.
Qed.

Lemma big_SetBytes_acc bs : ∀ acc,
  Forall is_byte bs -> 0 <= acc ->
  0 <= fold_left (fun a b => a * 256 + b) bs acc
  ∧ fold_left (fun a b => a * 256 + b) bs acc < (acc + 1) * 256 ^ Z.of_nat (length bs).
Proof.
  induction bs as [|b bs IH]; intros acc Hall Hacc.
  - simpl. lia.
  - apply Forall_cons in Hall as [Hb Hall]. red in Hb.
    destruct (IH (acc * 256 + b) Hall ltac:(lia)) as [Hlo Hhi].
    split; [exact Hlo|].
    eapply Z.lt_le_trans; [exact Hhi|].
    rewrite length_cons, Nat2Z.inj_succ, Z.pow_succ_r by lia.
    assert (0 < 256 ^ Z.of_nat (length bs)) by (apply Z.pow_pos_nonneg; lia).
    nia.
Qed.

(** The value of a byte string read big-endian lies below [256 ^ length]. *)
Lemma big_SetBytes_range bs :
  Forall is_byte bs -> 0 <= big_SetBytes bs < 256 ^ Z.of_nat (length bs).
Proof.
  intros Hall. destruct (big_SetBytes_acc bs 0 Hall ltac:(lia)) as [Hlo Hhi].
  unfold big_SetBytes. lia.
Qed.

Lemma big_Int64_range x : - 2 ^ 63 <= big_Int64 x < 2 ^ 63.
Proof.
  unfold big_Int64.
  pose proof (Z.mod_pos_bound x (2 ^ 64) ltac:(lia)) as Hm.
  destruct (Z.ltb_spec (x mod 2 ^ 64) (2 ^ 63)); lia.
Qed.

Lemma big_Int64_small x : 0 <= x < 2 ^ 63 -> big_Int64 x = x.
Proof.
  intros Hx. unfold big_Int64. rewrite Z.mod_small by lia.
  destruct (Z.ltb_spec x (2 ^ 63)); lia.
Qed.

(** X11.  A key that the loop stores has a modulus that is not negative and
    an exponent within the 64-bit signed range; the exponent is the
    big-endian value of the decoded bytes when these are at most seven, and
    the low 64 bits of that value, read as a signed number, in general: an
    exponent that does not fit is stored, not rejected. *)
Theorem decode_jwk_key_bounds k key :
  decode_jwk k = inr key ->
  0 <= pk_N key
  ∧ - 2 ^ 63 <= pk_E key < 2 ^ 63
  ∧ ∃ bn be,
      base64_DecodeString (jwk_N k) = Some bn
      ∧ base64_DecodeString (jwk_E k) = Some be
      ∧ pk_N key = big_SetBytes bn
      ∧ (pk_E key - big_SetBytes be) mod 2 ^ 64 = 0
      ∧ ((length be <= 7)%nat -> pk_E key = big_SetBytes be).
Proof.
  unfold decode_jwk. destruct (_ || _); [discriminate|].
  destruct (base64_DecodeString (jwk_N k)) as [bn|] eqn:Hn; [|discriminate].
  destruct (base64_DecodeString (jwk_E k)) as [be|] eqn:He; [|discriminate].
  intros [= <-]. simpl.
  pose proof (big_SetBytes_range bn (base64_DecodeString_bytes _ _ Hn)) as HN.
  pose proof (big_SetBytes_range be (base64_DecodeString_bytes _ _ He)) as HE.
  split; [lia|]. split; [apply big_Int64_range|].
  exists bn, be. repeat split.
  - unfold big_Int64.
    destruct (Z.ltb_spec (big_SetBytes be mod 2 ^ 64) (2 ^ 63)).
    + rewrite Zminus_mod, Z.mod_mod, Z.sub_diag by lia. reflexivity.
    + replace (big_SetBytes be mod 2 ^ 64 - 2 ^ 64 - big_SetBytes be)
        with (big_SetBytes be mod 2 ^ 64 - big_SetBytes be + (-1) * 2 ^ 64) by lia.
      rewrite Z.mod_add by lia.
      rewrite Zminus_mod, Z.mod_mod, Z.sub_diag by lia. reflexivity.
  - intros Hlen. apply big_Int64_small.
    assert (256 ^ Z.of_nat (length be) <= 256 ^ 7)
      by (apply Z.pow_le_mono_r; lia).
    lia.
Qed.

Lemma range_Keys_stored ks : ∀ m m',
  range_Keys ks m = inr m' -> Forall complete_entry ks.
Proof.
  induction ks as [|k ks IH]; intros m m'; simpl; [constructor|].
  destruct (decode_jwk k) as [e|key] eqn:Hk; [discriminate|].
  intros Hrun. constructor; [eapply decode_jwk_stored; eassumption|].
  eapply IH; eassumption.
Qed.

Lemma range_Keys_app pre post : ∀ m m',
  range_Keys (pre ++ post) m = inr m' ->
  ∃ m1, range_Keys pre m = inr m1 ∧ range_Keys post m1 = inr m'.
Proof.
  induction pre as [|k pre IH]; intros m m'; simpl.
  - intros H. exists m. split; [reflexivity|exact H].
  - destruct (decode_jwk k) as [e|key]; [discriminate|]. apply IH.
Qed.

Lemma range_Keys_other post kid : ∀ m m',
  range_Keys post m = inr m' ->
  Forall (fun k' => jwk_KID k' ≠ kid) post ->
  m' !! kid = m !! kid.
Proof.
  induction post as [|k post IH]; intros m m'; simpl.
  - intros [= <-] _. reflexivity.
  - destruct (decode_jwk k) as [e|key]; [discriminate|].
    intros Hrun Hall. apply Forall_cons in Hall as [Hk Hall].
    rewrite (IH _ _ Hrun Hall). apply lookup_insert_ne. exact Hk.
Qed.

(** What [UpdatePublicKey] leaves when it returns nil. *)
Lemma UpdatePublicKey_installed r expiration st st' :
  UpdatePublicKey X r expiration st = (None, st') ->
  ∃ entries m,
    json_Decode_jwks X r = Some {| Keys := Some entries |}
    ∧ range_Keys entries ∅ = inr m
    ∧ m ≠ ∅
    ∧ st' = {| cache := {| keyFetcher := keyFetcher (cache st);
                           publicKeys := m;
                           keyExpire := expiration |};
               clock_reads := clock_reads st;
               fetch_calls := fetch_calls st |}.
Proof.
  unfold UpdatePublicKey, parseJWKS.
  destruct (json_Decode_jwks X r) as [[[entries|]]|]; simpl; try discriminate.
  destruct (range_Keys entries ∅) as [e|m] eqn:Hrun; [discriminate|].
  destruct (Nat.eqb_spec (size m) 0) as [|Hsize]; [discriminate|].
  intros [= <-]. exists entries, m.
  split; [reflexivity|]. split; [exact Hrun|]. split; [|reflexivity].
  intros ->. apply Hsize. apply map_size_empty.
Qed.

(** X9.  [UpdatePublicKey] returns nil only for a document that parses,
    lists at least one entry and has only complete entries; it then replaces
    the map by one with exactly the identifiers of the document, sets the
    deadline, and changes nothing else. *)
Theorem UpdatePublicKey_accepts_only_complete r expiration st st' :
  UpdatePublicKey X r expiration st = (None, st') ->
  ∃ entries,
    json_Decode_jwks X r = Some {| Keys := Some entries |}
    ∧ entries ≠ []
    ∧ Forall complete_entry entries
    ∧ dom (publicKeys (cache st')) = list_to_set (jwk_KID <$> entries)
    ∧ keyExpire (cache st') = expiration
    ∧ keyFetcher (cache st') = keyFetcher (cache st)
    ∧ clock_reads st' = clock_reads st
    ∧ fetch_calls st' = fetch_calls st.
Proof.
  intros Hupd.
  destruct (UpdatePublicKey_installed _ _ _ _ Hupd)
    as (entries & m & Hdoc & Hrun & Hne & ->).
  exists entries. simpl.
  pose proof (range_Keys_stored _ _ _ Hrun) as Hall.
  destruct (range_Keys_complete entries ∅ Hall) as (m2 & Hrun2 & Hdom).
  rewrite Hrun in Hrun2. injection Hrun2 as <-.
  rewrite dom_empty_L, (left_id_L ∅ (∪)) in Hdom.
  repeat split; try assumption; try reflexivity.
  intros ->. simpl in Hrun. injection Hrun as <-. contradiction.
Qed.

(** X10.  When identifiers repeat in a document, the last entry with an
    identifier is the one whose key the map holds: its modulus and exponent
    are read from that entry. *)
Theorem UpdatePublicKey_last_entry_wins r expiration st st' pre k post :
  UpdatePublicKey X r expiration st = (None, st') ->
  json_Decode_jwks X r = Some {| Keys := Some (pre ++ k :: post)%list |} ->
  last_with_identifier k post ->
  ∃ bn be,
    base64_DecodeString (jwk_N k) = Some bn
    ∧ base64_DecodeString (jwk_E k) = Some be
    ∧ publicKeys (cache st') !! jwk_KID k
      = Some {| pk_N := big_SetBytes bn; pk_E := big_Int64 (big_SetBytes be) |}.
Proof.
  intros Hupd Hdoc Hlast.
  destruct (UpdatePublicKey_installed _ _ _ _ Hupd)
    as (entries & m & Hdoc' & Hrun & _ & ->).
  rewrite Hdoc in Hdoc'. injection Hdoc' as <-.
  apply range_Keys_app in Hrun as (m1 & _ & Hrun). simpl in Hrun.
  destruct (decode_jwk k) as [e|key] eqn:Hk; [discriminate|].
  pose proof (range_Keys_other _ _ _ _ Hrun Hlast) as Hlook.
  rewrite lookup_insert_eq in Hlook.
  unfold decode_jwk in Hk. destruct (_ || _); [discriminate|].
  destruct (base64_DecodeString (jwk_N k)) as [bn|]; [|discriminate].
  destruct (base64_DecodeString (jwk_E k)) as [be|]; [|discriminate].
  injection Hk as <-. exists bn, be. simpl. auto.
Qed.

End Decoder.

(** ** Further properties: the life of the cache *)

Section CacheLife.

Context (X : Externals) (wall_clock : nat -> Time).

(** The two ways a lookup can go, spelled out. *)
Lemma retrieveKey_fresh kid st :
  Before (keyExpire (cache st)) (now_at_lookup wall_clock st) = false ->
  retrieveKey X wall_clock kid st
  = ((publicKeys (cache st) !! kid, None), snd (time_Now wall_clock st)).
Proof.
  unfold retrieveKey, now_at_lookup. simpl. intros ->. reflexivity.
Qed.

Lemma retrieveKey_stale kid st :
  Before (keyExpire (cache st)) (now_at_lookup wall_clock st) = true ->
  retrieveKey X wall_clock kid st
  = let st2 := snd (call_keyFetcher (snd (time_Now wall_clock st))) in
    match keyFetcher (cache st) (fetch_calls st) with
    | (_, _, Some err) => ((None, Some (ErrFetchKey err)), st2)
    | (reader, expires, None) =>
        match UpdatePublicKey X reader expires st2 with
        | (Some err, st3) => ((None, Some (ErrUpdateKeyCache err)), st3)
        | (None, st3) => ((publicKeys (cache st3) !! kid, None), st3)
        end
    end.
Proof.
  unfold retrieveKey, now_at_lookup. simpl. intros ->.
  destruct (keyFetcher _ _) as [[reader expires] [err|]]; [reflexivity|].
  destruct (UpdatePublicKey _ _ _ _) as [[err|] st3]; reflexivity.
Qed.

(** A key that a lookup returns is the one the map then holds. *)
Lemma retrieveKey_from_map kid st k st1 :
  retrieveKey X wall_clock kid st = ((k, None), st1) ->
  k = publicKeys (cache st1) !! kid.
Proof.
  destruct (Before (keyExpire (cache st)) (now_at_lookup wall_clock st)) eqn:Hb.
  - rewrite (retrieveKey_stale kid st Hb). simpl.
    destruct (keyFetcher _ _) as [[reader expires] [err|]]; [discriminate|].
    destruct (UpdatePublicKey _ _ _ _) as [[err|] st3]; [discriminate|].
    intros [= <- <-]. reflexivity.
  - rewrite (retrieveKey_fresh kid st Hb). intros [= <- <-]. reflexivity.
Qed.

(** A lookup never leaves the map empty when it was not: a refresh installs
    a map with at least one key or none at all. *)
Lemma retrieveKey_keeps_keys kid st :
  publicKeys (cache st) ≠ ∅ ->
  publicKeys (cache (snd (retrieveKey X wall_clock kid st))) ≠ ∅.
Proof.
  intros Hne.
  destruct (Before (keyExpire (cache st)) (now_at_lookup wall_clock st)) eqn:Hb.
  - rewrite (retrieveKey_stale kid st Hb). simpl.
    destruct (keyFetcher _ _) as [[reader expires] [err|]]; [exact Hne|].
    destruct (UpdatePublicKey _ _ _ _) as [[err|] st3] eqn:Hupd.
    + apply UpdatePublicKey_error_state in Hupd. subst st3. exact Hne.
    + apply UpdatePublicKey_installed in Hupd
        as (entries & m & _ & _ & Hm & ->).
      exact Hm.
  - rewrite (retrieveKey_fresh kid st Hb). exact Hne.
Qed.

(** X7.  After a lookup that returned without an error, a second lookup
    made no later than the deadline then stored does not call the fetch
    function, leaves the cache as it is, and answers from the same map; for
    the same identifier it gives the same key. *)
Theorem retrieveKey_again kid kid' st k st1 :
  retrieveKey X wall_clock kid st = ((k, None), st1) ->
  now_at_lookup wall_clock st1 <= keyExpire (cache st1) ->
  retrieveKey X wall_clock kid' st1
  = ((publicKeys (cache st1) !! kid', None), snd (time_Now wall_clock st1))
  ∧ fst (retrieveKey X wall_clock kid st1) = (k, None).
Proof.
  intros Hfirst Hnow.
  assert (Hb : Before (keyExpire (cache st1)) (now_at_lookup wall_clock st1) = false).
  { unfold Before. apply Z.ltb_ge. exact Hnow. }
  split; [apply retrieveKey_fresh; exact Hb|].
  rewrite (retrieveKey_fresh kid st1 Hb). simpl.
  rewrite (retrieveKey_from_map _ _ _ _ Hfirst). reflexivity.
Qed.

Lemma UpdatePublicKey_complete r expiration st entries :
  json_Decode_jwks X r = Some {| Keys := Some entries |} ->
  entries ≠ [] ->
  Forall complete_entry entries ->
  ∃ m, UpdatePublicKey X r expiration st
       = (None, {| cache := {| keyFetcher := keyFetcher (cache st);
                               publicKeys := m;
                               keyExpire := expiration |};
                   clock_reads := clock_reads st;
                   fetch_calls := fetch_calls st |})
       ∧ dom m = list_to_set (jwk_KID <$> entries).
Proof.
  intros Hdoc Hne Hall.
  destruct (range_Keys_complete entries ∅ Hall) as (m & Hrun & Hdom).
  rewrite dom_empty_L, (left_id_L ∅ (∪)) in Hdom.
  exists m. split; [|exact Hdom].
  unfold UpdatePublicKey, parseJWKS. rewrite Hdoc. simpl. rewrite Hrun.
  destruct (Nat.eqb_spec (size m) 0) as [Hz|]; [|reflexivity].
  apply map_size_empty_iff in Hz. subst m. rewrite dom_empty_L in Hdom.
  destruct entries as [|k ks]; [contradiction|].
  rewrite fmap_cons in Hdom. simpl in Hdom. set_solver.
Qed.

(** X8.  A refresh replaces the map as a whole.  When the deadline has
    passed and the document fetched is complete, the lookup answers from the
    new map alone: an identifier the document does not list is not found,
    whether or not the old map had it, and the deadline is the one the fetch
    function returned. *)
Theorem retrieveKey_refresh_replaces kid st reader expires entries :
  keyExpire (cache st) < now_at_lookup wall_clock st ->
  keyFetcher (cache st) (fetch_calls st) = (reader, expires, None) ->
  json_Decode_jwks X reader = Some {| Keys := Some entries |} ->
  entries ≠ [] ->
  Forall complete_entry entries ->
  ∃ k st',
    retrieveKey X wall_clock kid st = ((k, None), st')
    ∧ dom (publicKeys (cache st')) = list_to_set (jwk_KID <$> entries)
    ∧ keyExpire (cache st') = expires
    ∧ (is_Some k ↔ kid ∈ jwk_KID <$> entries).
Proof.
  intros Hstale Hfetch Hdoc Hne Hall.
  assert (Hb : Before (keyExpire (cache st)) (now_at_lookup wall_clock st) = true).
  { unfold Before. apply Z.ltb_lt. exact Hstale. }
  rewrite (retrieveKey_stale kid st Hb), Hfetch. simpl.
  destruct (UpdatePublicKey_complete reader expires
              (snd (call_keyFetcher (snd (time_Now wall_clock st))))
              entries Hdoc Hne Hall) as (m & Hupd & Hdom).
  simpl in Hupd. rewrite Hupd. simpl.
  eexists _, _. split; [reflexivity|]. simpl.
  split; [exact Hdom|]. split; [reflexivity|].
  rewrite <- elem_of_dom, Hdom. set_solver.
Qed.

(** X6.  [NewVerifier], when the clock is past the zero time, calls the
    fetch function exactly once.  If it returns nil the cache holds at least
    one key and the deadline the fetch function gave; if it returns an error
    the verifier it hands out all the same has an empty map and the zero
    time as deadline, so that its first lookup fetches again. *)
Theorem NewVerifier_first_fetch f cid st :
  zeroTime < wall_clock (clock_reads st) ->
  let r := NewVerifier X wall_clock f cid st in
  fetch_calls (snd r) = S (fetch_calls st)
  ∧ clientID (fst (fst r)) = cid
  ∧ issuer (fst (fst r)) = "https://accounts.google.com"
  ∧ (snd (fst r) = None ->
     publicKeys (cache (snd r)) ≠ ∅
     ∧ ∃ reader, f (fetch_calls st) = (reader, keyExpire (cache (snd r)), None))
  ∧ (snd (fst r) ≠ None ->
     publicKeys (cache (snd r)) = ∅ ∧ keyExpire (cache (snd r)) = zeroTime).
Proof.
  intros Hclock. unfold NewVerifier, newKeyCache.
  match goal with
  | |- context [retrieveKey X wall_clock "" ?s] => set (st0 := s)
  end.
  assert (Hb : Before (keyExpire (cache st0)) (now_at_lookup wall_clock st0) = true).
  { unfold Before. apply Z.ltb_lt. exact Hclock. }
  rewrite (retrieveKey_stale "" st0 Hb). simpl.
  destruct (f (fetch_calls st)) as [[reader expires] [err|]] eqn:Hf; simpl.
  { do 3 (split; [reflexivity|]). split; [discriminate|].
    intros _. split; reflexivity. }
  match goal with
  | |- context [UpdatePublicKey X reader expires ?s] =>
      destruct (UpdatePublicKey X reader expires s) as [[err|] st3] eqn:Hupd
  end; simpl.
  - apply UpdatePublicKey_error_state in Hupd. subst st3. simpl.
    do 3 (split; [reflexivity|]). split; [discriminate|].
    intros _. split; reflexivity.
  - apply UpdatePublicKey_installed in Hupd as (entries & m & _ & _ & Hm & ->).
    simpl. do 3 (split; [reflexivity|]). split; [|intros H; contradiction].
    intros _. split; [exact Hm|]. exists reader. reflexivity.
Qed.

End CacheLife.

(** ** Further properties: the pipeline as a whole *)

Section Verdicts.

Context (X : Externals) (wall_clock : nat -> Time).

Lemma strings_Split_dot_whole tok p0 p1 p2 :
  strings_Split_dot tok = [p0; p1; p2] ->
  tok = strings_Join_dot p0 p1 +:+ String dot p2.
Proof.
  intros Hsplit. pose proof (split_sep_join dot tok) as Hjoin.
  unfold strings_Split_dot in Hsplit. rewrite Hsplit in Hjoin.
  unfold strings_Join_dot. rewrite append_assoc_string.
  symmetry. exact Hjoin.
Qed.

Lemma retrieveKey_effects kid st :
  let st1 := snd (retrieveKey X wall_clock kid st) in
  clock_reads st1 = S (clock_reads st)
  ∧ keyFetcher (cache st1) = keyFetcher (cache st)
  ∧ (fetch_calls st1 = fetch_calls st ∨ fetch_calls st1 = S (fetch_calls st))
  ∧ (fetch_calls st1 = fetch_calls st -> cache st1 = cache st).
Proof.
  destruct (Before (keyExpire (cache st)) (now_at_lookup wall_clock st)) eqn:Hb.
  - rewrite (retrieveKey_stale X wall_clock kid st Hb). simpl.
    destruct (keyFetcher _ _) as [[reader expires] [err|]]; simpl.
    { repeat split; auto; lia. }
    destruct (UpdatePublicKey _ _ _ _) as [[err|] st3] eqn:Hupd; simpl.
    + apply UpdatePublicKey_error_state in Hupd. subst st3. simpl.
      repeat split; auto; lia.
    + apply UpdatePublicKey_installed in Hupd as (entries & m & _ & _ & _ & ->).
      simpl. repeat split; auto; lia.
  - rewrite (retrieveKey_fresh X wall_clock kid st Hb). simpl.
    repeat split; auto.
Qed.

(** The state a call ends in: the initial one, the one the lookup left, or
    that one after one or two more readings of the clock. *)
Lemma ParseAndVerify_state v tok st :
  let st' := snd (ParseAndVerify X wall_clock v tok st) in
  st' = st
  ∨ ∃ kid,
      let st1 := snd (retrieveKey X wall_clock kid st) in
      st' = st1
      ∨ st' = snd (time_Now wall_clock st1)
      ∨ st' = snd (time_Now wall_clock (snd (time_Now wall_clock st1))).
Proof.
  unfold ParseAndVerify.
  destruct (strings_Split_dot tok) as [|p0 [|p1 [|p2 [|p3 l]]]];
    try (left; reflexivity).
  destruct (parseJWT X p0 p1 p2) as [e|t]; [left; reflexivity|].
  destruct (negb _); [left; reflexivity|].
  right. exists (KID (header t)).
  destruct (retrieveKey X wall_clock (KID (header t)) st) as [[key [e|]] st1];
    [left; reflexivity|].
  destruct key as [key|]; [|left; reflexivity].
  destruct (verifySignature _ _ _ _); [left; reflexivity|].
  destruct (negb _); [left; reflexivity|].
  destruct (negb _); [left; reflexivity|].
  simpl.
  destruct (_ <=? _); [right; left; reflexivity|].
  destruct (_ >? _); right; right; reflexivity.
Qed.

(** X4.  One call reads the clock at most three times and calls the fetch
    function at most once; it never replaces the fetch function, never
    empties a map that holds keys, and leaves the cache as it is unless it
    called the fetch function. *)
Theorem ParseAndVerify_effects v tok st :
  let st' := snd (ParseAndVerify X wall_clock v tok st) in
  (clock_reads st <= clock_reads st' <= clock_reads st + 3)%nat
  ∧ (fetch_calls st' = fetch_calls st ∨ fetch_calls st' = S (fetch_calls st))
  ∧ keyFetcher (cache st') = keyFetcher (cache st)
  ∧ (publicKeys (cache st) ≠ ∅ -> publicKeys (cache st') ≠ ∅)
  ∧ (fetch_calls st' = fetch_calls st -> cache st' = cache st).
Proof.
  intros st'. subst st'.
  destruct (ParseAndVerify_state v tok st) as [->|[kid Hst]].
  { repeat split; auto; lia. }
  pose proof (retrieveKey_effects kid st) as (Hclk & Hf & Hcalls & Hcache).
  pose proof (retrieveKey_keeps_keys X wall_clock kid st) as Hkeys.
  simpl in Hst.
  destruct Hst as [->|[->| ->]]; simpl; repeat split; auto; lia.
Qed.

Lemma ParseAndVerify_fresh_state v tok st :
  Before (keyExpire (cache st)) (now_at_lookup wall_clock st) = false ->
  cache (snd (ParseAndVerify X wall_clock v tok st)) = cache st
  ∧ fetch_calls (snd (ParseAndVerify X wall_clock v tok st)) = fetch_calls st.
Proof.
  intros Hb.
  destruct (ParseAndVerify_state v tok st) as [->|[kid Hst]]; [auto|].
  simpl in Hst. rewrite (retrieveKey_fresh X wall_clock kid st Hb) in Hst.
  simpl in Hst. destruct Hst as [->|[->| ->]]; auto.
Qed.

(** X5.  While the deadline of the cache has not passed, a call does not
    call the fetch function and does not change the cache, whatever the
    token. *)
Theorem ParseAndVerify_fresh_cache v tok st :
  now_at_lookup wall_clock st <= keyExpire (cache st) ->
  cache (snd (ParseAndVerify X wall_clock v tok st)) = cache st
  ∧ fetch_calls (snd (ParseAndVerify X wall_clock v tok st)) = fetch_calls st.
Proof.
  intros Hnow. apply ParseAndVerify_fresh_state.
  unfold Before. apply Z.ltb_ge. exact Hnow.
Qed.

(** X2.  A token is rejected as malformed exactly when it does not have two
    dots, and then the state is untouched. *)
Theorem ParseAndVerify_malformed_iff v tok st :
  (count_char dot tok ≠ 2%nat ->
   ParseAndVerify X wall_clock v tok st = ((None, Some (ErrMalformedToken tok)), st))
  ∧ (count_char dot tok = 2%nat ->
     ∀ s, snd (fst (ParseAndVerify X wall_clock v tok st)) ≠ Some (ErrMalformedToken s)).
Proof.
  pose proof (split_sep_length dot tok) as Hlen.
  fold (strings_Split_dot tok) in Hlen. unfold ParseAndVerify.
  destruct (strings_Split_dot tok) as [|p0 [|p1 [|p2 [|p3 l]]]]; simpl in Hlen;
    split; intros Hcount; try reflexivity; try lia.
  intros s.
  destruct (parseJWT X p0 p1 p2) as [e|t]; [discriminate|].
  destruct (negb _); [discriminate|].
  destruct (retrieveKey _ _ _ _) as [[key [e|]] st1]; [discriminate|].
  destruct key as [key|]; [|discriminate].
  destruct (verifySignature _ _ _ _); [discriminate|].
  destruct (negb _); [discriminate|].
  destruct (negb _); [discriminate|].
  simpl.
  destruct (_ <=? _); [discriminate|].
  destruct (_ >? _); discriminate.
Qed.

(** X1.  A token that is returned is well-formed and checked: the input is
    its two decoded segments and its signature joined by dots, the
    algorithm is RS256, the cache holds a key under the identifier of the
    header, the signature is base64url and verifies over the first two
    segments as they were received, issuer and audience are the configured
    ones, the expiry lies after the second reading of the clock and the
    issued-at time not after the third. *)
Theorem ParseAndVerify_accepted v tok st t st' :
  ParseAndVerify X wall_clock v tok st = ((Some t, None), st') ->
  ∃ p0 p1 key sig,
    tok = strings_Join_dot p0 p1 +:+ String dot (Signature t)
    ∧ parseJWT X p0 p1 (Signature t) = inr t
    ∧ ALG (header t) = "RS256"
    ∧ publicKeys (cache st') !! KID (header t) = Some key
    ∧ base64_DecodeString (Signature t) = Some sig
    ∧ rsa_VerifyPKCS1v15 X key (sha256_Sum256 X (strings_Join_dot p0 p1)) sig = true
    ∧ ISS (claims t) = issuer v
    ∧ AUD (claims t) = clientID v
    ∧ Unix (wall_clock (S (clock_reads st))) < EXP (claims t)
    ∧ IAT (claims t) <= Unix (wall_clock (S (S (clock_reads st))))
    ∧ clock_reads st' = (clock_reads st + 3)%nat.
Proof.
  unfold ParseAndVerify.
  destruct (strings_Split_dot tok) as [|p0 [|p1 [|p2 [|p3 l]]]] eqn:Hsplit;
    try discriminate.
  destruct (parseJWT X p0 p1 p2) as [e|t0] eqn:Hdec; [discriminate|].
  destruct (String.eqb_spec (ALG (header t0)) "RS256") as [Halg|]; [|discriminate].
  simpl negb. cbv iota.
  destruct (retrieveKey X wall_clock (KID (header t0)) st) as [[key [e|]] st1] eqn:Hkey;
    [discriminate|].
  destruct key as [key|]; [|discriminate].
  destruct (verifySignature X (strings_Join_dot p0 p1) p2 key) eqn:Hsig; [discriminate|].
  destruct (String.eqb_spec (ISS (claims t0)) (issuer v)) as [Hiss|]; [|discriminate].
  destruct (String.eqb_spec (AUD (claims t0)) (clientID v)) as [Haud|]; [|discriminate].
  simpl.
  destruct (Z.leb_spec (EXP (claims t0)) (Unix (wall_clock (clock_reads st1))))
    as [|Hexp]; [discriminate|].
  destruct (IAT (claims t0) >? Unix (wall_clock (S (clock_reads st1)))) eqn:Hiat;
    [discriminate|].
  intros [= <- <-].
  pose proof (parseJWT_signature X p0 p1 p2) as Hsg. rewrite Hdec in Hsg. subst p2.
  pose proof (retrieveKey_clock_reads X wall_clock _ _ _ _ Hkey) as Hclk.
  pose proof (retrieveKey_from_map X wall_clock _ _ _ _ Hkey) as Hmap.
  unfold verifySignature in Hsig.
  destruct (base64_DecodeString (Signature t0)) as [sig|] eqn:Hb64; [|discriminate].
  destruct (rsa_VerifyPKCS1v15 X key _ sig) eqn:Hrsa; [|discriminate].
  exists p0, p1, key, sig. simpl.
  replace (S (clock_reads st)) with (clock_reads st1) by lia.
  rewrite Z.gtb_ltb in Hiat. apply Z.ltb_ge in Hiat.
  repeat split; auto; try lia.
  apply strings_Split_dot_whole. exact Hsplit.
Qed.

End Verdicts.

(** ** Further properties: [extractMaxAge] *)

Section MaxAge.

Lemma free_of_cons c a s :
  free_of c (String a s) ↔ Ascii.eqb a c = false ∧ free_of c s.
Proof.
  unfold free_of. simpl. destruct (Ascii.eqb a c); simpl; split.
  - discriminate.
  - intros [H _]. discriminate.
  - auto.
  - intros [_ H]. exact H.
Qed.

Lemma prefix_other_head sep c x rest :
  Ascii.eqb x c = false -> String.prefix (String c sep) (String x rest) = false.
Proof.
  intros Hx. simpl. destruct (ascii_dec c x) as [->|]; [|reflexivity].
  rewrite Ascii.eqb_refl in Hx. discriminate.
Qed.

(** A piece without a comma in front of [", "] is the first piece. *)
Lemma split_comma_space_app a rest :
  free_of "," a ->
  strings_Split (a +:+ ", " +:+ rest) ", " = a :: strings_Split rest ", ".
Proof.
  unfold strings_Split. induction a as [|x a IH]; intros Hfree.
  - change ("" +:+ ", " +:+ rest) with (String "," (String " " rest)).
    simpl. destruct (ascii_dec "," ","); [|contradiction].
    destruct (ascii_dec " " " "); [|contradiction].
    replace (String.prefix "" rest) with true by (destruct rest; reflexivity).
    reflexivity.
  - apply free_of_cons in Hfree as [Hx Hfree].
    change (String x a +:+ ", " +:+ rest) with (String x (a +:+ ", " +:+ rest)).
    cbn [split_str]. rewrite (prefix_other_head " " "," x _ Hx).
    rewrite (IH Hfree). reflexivity.
Qed.

Lemma digit_val_not c d x :
  digit_val c = Some d -> in_range 48 57 (nat_of_ascii x) = false ->
  Ascii.eqb c x = false.
Proof.
  unfold digit_val. intros Hc Hx. destruct (Ascii.eqb_spec c x) as [->|]; [|reflexivity].
  rewrite Hx in Hc. discriminate.
Qed.

Lemma digits_free c s acc :
  in_range 48 57 (nat_of_ascii c) = false ->
  is_Some (digits_val s acc) -> free_of c s.
Proof.
  intros Hc. revert acc. induction s as [|a s IH]; intros acc Hs; [reflexivity|].
  simpl in Hs. destruct (digit_val a) as [d|] eqn:Ha; [|destruct Hs; discriminate].
  apply free_of_cons. split; [eapply digit_val_not; eassumption|].
  eapply IH; eassumption.
Qed.

Lemma digits_val_nonneg s : ∀ acc n, 0 <= acc -> digits_val s acc = Some n -> 0 <= n.
Proof.
  induction s as [|a s IH]; intros acc n Hacc; simpl.
  - intros [= <-]. exact Hacc.
  - destruct (digit_val a) as [d|] eqn:Ha; [|discriminate].
    apply IH. unfold digit_val in Ha.
    destruct (in_range 48 57 (nat_of_ascii a)) eqn:Hr; [|discriminate].
    injection Ha as <-. unfold in_range in Hr.
    apply andb_true_iff in Hr as [Hlo _]. apply Nat.leb_le in Hlo. lia.
Qed.

(** [strconv.Atoi] on an unsigned decimal that fits. *)
Lemma strconv_Atoi_decimal s n :
  decimal s -> digits_val s 0 = Some n -> n < 2 ^ 63 -> strconv_Atoi s = Some n.
Proof.
  intros [Hne _] Hval Hfit. destruct s as [|c s]; [contradiction|].
  unfold strconv_Atoi.
  assert (Hsign : Ascii.eqb c "-" || Ascii.eqb c "+" = false).
  { simpl in Hval. destruct (digit_val c) as [d|] eqn:Hc; [|discriminate].
    rewrite (digit_val_not c d "-" Hc eq_refl), (digit_val_not c d "+" Hc eq_refl).
    reflexivity. }
  rewrite Hsign. apply orb_false_iff in Hsign as [-> _].
  rewrite Hval. pose proof (digits_val_nonneg _ _ _ (Z.le_refl 0) Hval) as Hn.
  destruct (Z.leb_spec (- 2 ^ 63) n); [|lia].
  destruct (Z.ltb_spec n (2 ^ 63)); [reflexivity|lia].
Qed.

Lemma range_cacheValues_first pre v post :
  Forall (fun d => strings_HasPrefix d "max-age" = false) pre ->
  strings_HasPrefix v "max-age" = true ->
  range_cacheValues (pre ++ v :: post) = Some (max_age_of v).
Proof.
  induction pre as [|d pre IH]; intros Hpre Hv; simpl.
  - rewrite Hv. reflexivity.
  - apply Forall_cons in Hpre as [Hd Hpre]. rewrite Hd. apply IH; assumption.
Qed.

Lemma range_cacheValues_none l :
  range_cacheValues l = None
  ↔ Forall (fun d => strings_HasPrefix d "max-age" = false) l.
Proof.
  induction l as [|d l IH]; simpl.
  - split; [constructor|reflexivity].
  - destruct (strings_HasPrefix d "max-age") eqn:Hd.
    + split; [discriminate|]. intros H. apply Forall_cons in H as [H _].
      congruence.
    + rewrite IH. split; [intros H; constructor; assumption|].
      intros H. apply Forall_cons in H as [_ H]. exact H.
Qed.

Lemma extractMaxAge_at_directive h pre v post :
  strings_Split h ", " = (pre ++ v :: post)%list ->
  Forall (fun d => strings_HasPrefix d "max-age" = false) pre ->
  strings_HasPrefix v "max-age" = true ->
  extractMaxAge h = max_age_of v.
Proof.
  intros Hsplit Hpre Hv. unfold extractMaxAge. rewrite Hsplit.
  rewrite range_cacheValues_first by assumption. reflexivity.
Qed.

Lemma max_age_of_pair name value more :
  free_of "=" name -> free_of "=" value ->
  more = "" ∨ (∃ m, more = String "=" m) ->
  max_age_of (name +:+ String "=" (value +:+ more))
  = match strconv_Atoi value with
    | Some maxAge => Returns maxAge
    | None => Fails (ErrConvertMaxAge value)
    end.
Proof.
  intros Hfn Hfv Hmore. unfold max_age_of.
  rewrite (split_sep_app "=" name _ Hfn).
  destruct Hmore as [->|[m ->]].
  - replace (value +:+ "") with value.
    + rewrite (split_sep_free_piece "=" value Hfv). reflexivity.
    + clear. induction value as [|x value IH]; [reflexivity|].
      change (String x value +:+ "") with (String x (value +:+ "")).
      rewrite <- IH. reflexivity.
  - rewrite (split_sep_app "=" value m Hfv). reflexivity.
Qed.

Lemma prefix_app pfx name rest :
  String.prefix pfx name = true -> String.prefix pfx (name +:+ rest) = true.
Proof.
  revert pfx. induction name as [|a name IH]; intros [|b pfx].
  - intros _. destruct rest; reflexivity.
  - discriminate.
  - intros _. reflexivity.
  - change (String a name +:+ rest) with (String a (name +:+ rest)). simpl.
    destruct (ascii_dec b a); [apply IH|discriminate].
Qed.

(** X12.  The first directive that begins with [max-age] decides, and of it
    only the text between its first [=] and the next one, if there is one:
    what follows in the directive and in the header is not looked at.  The
    result is the number that text stands for, or the conversion error when
    it is not a number. *)
Theorem extractMaxAge_first_directive h pre name value more post :
  strings_Split h ", "
  = (pre ++ (name +:+ String "=" (value +:+ more)) :: post)%list ->
  Forall (fun d => strings_HasPrefix d "max-age" = false) pre ->
  strings_HasPrefix name "max-age" = true ->
  free_of "=" name -> free_of "=" value ->
  more = "" ∨ (∃ m, more = String "=" m) ->
  extractMaxAge h
  = match strconv_Atoi value with
    | Some maxAge => Returns maxAge
    | None => Fails (ErrConvertMaxAge value)
    end.
Proof.
  intros Hsplit Hpre Hname Hfn Hfv Hmore.
  rewrite (extractMaxAge_at_directive h pre _ post Hsplit Hpre).
  - apply max_age_of_pair; assumption.
  - apply prefix_app. exact Hname.
Qed.

(** X13.  When the first directive that begins with [max-age] has no [=],
    the call does not return: indexing the pieces around [=] is out of
    range. *)
Theorem extractMaxAge_panics h pre v post :
  strings_Split h ", " = (pre ++ v :: post)%list ->
  Forall (fun d => strings_HasPrefix d "max-age" = false) pre ->
  strings_HasPrefix v "max-age" = true ->
  free_of "=" v ->
  extractMaxAge h = Panics.
Proof.
  intros Hsplit Hpre Hv Hfree.
  rewrite (extractMaxAge_at_directive h pre v post Hsplit Hpre Hv).
  unfold max_age_of. rewrite (split_sep_free_piece "=" v Hfree). reflexivity.
Qed.

(** X14.  The call fails with the not-found error exactly when no directive
    of the header begins with [max-age]. *)
Theorem extractMaxAge_not_found_iff h :
  extractMaxAge h = Fails (ErrMaxAgeNotFound h)
  ↔ Forall (fun d => strings_HasPrefix d "max-age" = false) (strings_Split h ", ").
Proof.
  unfold extractMaxAge. rewrite <- range_cacheValues_none.
  destruct (range_cacheValues (strings_Split h ", ")) as [o|] eqn:Hrun.
  - split; [|discriminate]. intros ->. exfalso.
    clear -Hrun. revert Hrun. generalize (strings_Split h ", ").
    induction l as [|d l IH]; simpl; [discriminate|].
    destruct (strings_HasPrefix d "max-age"); [|exact IH].
    unfold max_age_of. destruct (split_sep "=" d) as [|x [|y l']]; try discriminate.
    destruct (strconv_Atoi y); discriminate.
  - split; reflexivity.
Qed.

Lemma free_of_app c a b : free_of c a -> free_of c b -> free_of c (a +:+ b).
Proof.
  intros Ha Hb. induction a as [|x a IH]; [exact Hb|].
  change (String x a +:+ b) with (String x (a +:+ b)).
  apply free_of_cons in Ha as [Hx Ha]. apply free_of_cons. auto.
Qed.

(** X15.  A header in which a directive without a comma is followed by
    [max-age=] and an unsigned decimal that fits 63 bits yields that number,
    whatever comes after it. *)
Theorem extractMaxAge_decimal a ds n b :
  free_of "," a ->
  strings_HasPrefix a "max-age" = false ->
  decimal ds -> digits_val ds 0 = Some n -> n < 2 ^ 63 ->
  extractMaxAge (a +:+ ", " +:+ ("max-age=" +:+ ds) +:+ ", " +:+ b) = Returns n.
Proof.
  intros Ha Hpa Hds Hval Hfit.
  assert (Hcomma : free_of "," ds).
  { apply (digits_free "," ds 0); [reflexivity|]. rewrite Hval. eauto. }
  assert (Heq : free_of "=" ds).
  { apply (digits_free "=" ds 0); [reflexivity|]. rewrite Hval. eauto. }
  assert (Hsplit : strings_Split (a +:+ ", " +:+ ("max-age=" +:+ ds) +:+ ", " +:+ b) ", "
                   = ([a] ++ ("max-age=" +:+ ds) :: strings_Split b ", ")%list).
  { rewrite (split_comma_space_app a _ Ha).
    rewrite (split_comma_space_app ("max-age=" +:+ ds) b);
      [reflexivity|apply free_of_app; [reflexivity|exact Hcomma]]. }
  rewrite (extractMaxAge_at_directive _ _ _ _ Hsplit).
  - replace ("max-age=" +:+ ds) with ("max-age" +:+ String "=" (ds +:+ "")).
    + rewrite (max_age_of_pair "max-age" ds "" eq_refl Heq (or_introl eq_refl)).
      rewrite (strconv_Atoi_decimal ds n Hds Hval Hfit). reflexivity.
    + change ("max-age" +:+ String "=" (ds +:+ "")) with ("max-age=" +:+ (ds +:+ "")).
      f_equal. clear. induction ds as [|x ds IH]; [reflexivity|].
      change (String x ds +:+ "") with (String x (ds +:+ "")).
      rewrite IH. reflexivity.
  - repeat constructor. exact Hpa.
  - reflexivity.
Qed.

End MaxAge.

(** ** Further properties: calls in a row *)

Section Repeated.

Context (X : Externals) (wall_clock : nat -> Time).

(** With a cache that is fresh, the verdict is a function of the cache and
    of the three readings of the clock. *)
Lemma ParseAndVerify_fresh_verdict v tok st :
  Before (keyExpire (cache st)) (now_at_lookup wall_clock st) = false ->
  fst (ParseAndVerify X wall_clock v tok st)
  = match strings_Split_dot tok with
    | [p0; p1; p2] =>
        match parseJWT X p0 p1 p2 with
        | inl err => (None, Some (ErrDecodeToken [p0; p1; p2] err))
        | inr t =>
            if negb (String.eqb (ALG (header t)) "RS256")
            then (None, Some (ErrExpectedRS256 (ALG (header t))))
            else
              match publicKeys (cache st) !! KID (header t) with
              | None => (None, Some ErrKeyNotFound)
              | Some key =>
                  match verifySignature X (strings_Join_dot p0 p1) p2 key with
                  | Some err => (None, Some (ErrVerifySignature err))
                  | None =>
                      if negb (String.eqb (ISS (claims t)) (issuer v))
                      then (None, Some ErrInvalidIssuer)
                      else if negb (String.eqb (AUD (claims t)) (clientID v))
                      then (None, Some ErrClientID)
                      else if EXP (claims t) <=? Unix (wall_clock (S (clock_reads st)))
                      then (None, Some ErrTokenExpired)
                      else if IAT (claims t) >? Unix (wall_clock (S (S (clock_reads st))))
                      then (None, Some ErrIssuedForFuture)
                      else (Some t, None)
                  end
              end
        end
    | _ => (None, Some (ErrMalformedToken tok))
    end.
Proof.
  intros Hb. unfold ParseAndVerify.
  destruct (strings_Split_dot tok) as [|p0 [|p1 [|p2 [|p3 l]]]]; try reflexivity.
  destruct (parseJWT X p0 p1 p2) as [e|t]; [reflexivity|].
  destruct (negb _); [reflexivity|].
  rewrite (retrieveKey_fresh X wall_clock _ st Hb).
  destruct (publicKeys (cache st) !! KID (header t)) as [key|]; [|reflexivity].
  destruct (verifySignature _ _ _ _); [reflexivity|].
  destruct (negb _); [reflexivity|].
  destruct (negb _); [reflexivity|].
  simpl.
  destruct (_ <=? _); [reflexivity|].
  destruct (_ >? _); reflexivity.
Qed.

(** X16.  While the clock stands still and the deadline of the cache has
    not passed, verifying the same token again gives the same result, and
    so does verifying it after any other token. *)
Theorem ParseAndVerify_twice v tok tok' st now :
  (∀ n, wall_clock n = now) ->
  now <= keyExpire (cache st) ->
  fst (ParseAndVerify X wall_clock v tok
         (snd (ParseAndVerify X wall_clock v tok' st)))
  = fst (ParseAndVerify X wall_clock v tok st).
Proof.
  intros Hconst Hnow.
  assert (Hfresh : ∀ s, cache s = cache st ->
            Before (keyExpire (cache s)) (now_at_lookup wall_clock s) = false).
  { intros s Hs. unfold Before, now_at_lookup. rewrite Hs, Hconst.
    apply Z.ltb_ge. exact Hnow. }
  assert (Hcache : cache (snd (ParseAndVerify X wall_clock v tok' st)) = cache st).
  { apply (ParseAndVerify_fresh_state X wall_clock v tok' st (Hfresh st eq_refl)). }
  rewrite (ParseAndVerify_fresh_verdict v tok _ (Hfresh _ Hcache)).
  rewrite (ParseAndVerify_fresh_verdict v tok st (Hfresh st eq_refl)).
  rewrite Hcache, !Hconst. reflexivity.
Qed.

Lemma retrieveKey_failed_state kid st :
  refresh_fails X wall_clock st ->
  cache (snd (retrieveKey X wall_clock kid st)) = cache st
  ∧ clock_reads (snd (retrieveKey X wall_clock kid st)) = S (clock_reads st).
Proof.
  intros (Hstale & reader & expires & ferr & Hfetch & Hfail).
  split; [|apply (retrieveKey_effects X wall_clock kid st)].
  rewrite (retrieveKey_stale X wall_clock kid st Hstale), Hfetch. simpl.
  destruct ferr as [e|]; [reflexivity|].
  destruct Hfail as [Hfail|Hfail]; [contradiction|].
  match goal with
  | |- context [UpdatePublicKey X reader expires ?s] =>
      rewrite (UpdatePublicKey_error_independent X reader expires st expires s)
        in Hfail;
      destruct (UpdatePublicKey X reader expires s) as [[e|] st3] eqn:Hupd
  end.
  - apply UpdatePublicKey_error_state in Hupd. subst st3. reflexivity.
  - simpl in Hfail. contradiction.
Qed.

(** X17.  A refresh that failed is attempted again by the next lookup: the
    cache keeps no trace of the failure, so with a clock that does not run
    backwards every lookup calls the fetch function until one refresh
    succeeds. *)
Theorem retrieveKey_retries_after_failure kid kid' st :
  refresh_fails X wall_clock st ->
  wall_clock (clock_reads st) <= wall_clock (S (clock_reads st)) ->
  fetch_calls (snd (retrieveKey X wall_clock kid'
                      (snd (retrieveKey X wall_clock kid st))))
  = S (S (fetch_calls st)).
Proof.
  intros Hfails Hmono.
  pose proof Hfails as (Hstale & _).
  destruct (retrieveKey_failed_state kid st Hfails) as (Hcache & Hclk).
  rewrite !retrieveKey_fetch_calls. rewrite Hstale.
  unfold now_at_lookup in *. rewrite Hcache, Hclk.
  unfold Before in *. apply Z.ltb_lt in Hstale.
  destruct (Z.ltb_spec (keyExpire (cache st)) (wall_clock (S (clock_reads st))));
    [reflexivity|lia].
Qed.

End Repeated.

(** ** The further properties at concrete inputs *)

Example exponent_wraps :
  decode_jwk (Demo.entry "u1SU" "__________8" "k1")
  = inr {| pk_N := 12276884; pk_E := -1 |}.
Proof. vm_compute. reflexivity. Qed.

Lemma ParseAndVerify_accepted_witness :
  ∃ st',
    ParseAndVerify Demo.externals Demo.clock Demo.verifier Demo.valid_token
      Demo.fresh
    = ((Some {| header := Demo.mkHeader "RS256" "k1";
                claims := Demo.mkClaims Demo.google "client-123" 1490 2000;
                Signature := "U0RFLlF6RQ" |}, None), st')
    ∧ publicKeys (cache st') !! "k1" = Some Demo.key1.
Proof.
  eexists. split; [vm_compute; reflexivity|].
  destruct (ParseAndVerify_accepted Demo.externals Demo.clock Demo.verifier
              Demo.valid_token Demo.fresh _ _ eq_refl)
    as (p0 & p1 & key & sig & _ & _ & _ & Hkey & _).
  reflexivity.
Defined.

Lemma ParseAndVerify_malformed_iff_witness :
  count_char dot "SDE.QzE" ≠ 2%nat
  ∧ ParseAndVerify Demo.externals Demo.clock Demo.verifier "SDE.QzE" Demo.stale
    = ((None, Some (ErrMalformedToken "SDE.QzE")), Demo.stale).
Proof.
  assert (H : count_char dot "SDE.QzE" ≠ 2%nat) by (vm_compute; discriminate).
  split; [exact H|].
  exact (proj1 (ParseAndVerify_malformed_iff Demo.externals Demo.clock
                  Demo.verifier "SDE.QzE" Demo.stale) H).
Defined.

Lemma strings_Split_dot_three_witness :
  strings_Split_dot Demo.valid_token = ["SDE"; "QzE"; "U0RFLlF6RQ"].
Proof.
  apply (proj2 (strings_Split_dot_three Demo.valid_token "SDE" "QzE" "U0RFLlF6RQ")).
  repeat split; reflexivity.
Defined.

Lemma ParseAndVerify_effects_witness :
  publicKeys (cache Demo.stale) ≠ ∅
  ∧ publicKeys (cache (snd (ParseAndVerify Demo.externals Demo.clock Demo.verifier
                              Demo.valid_token Demo.stale))) ≠ ∅.
Proof.
  assert (H : publicKeys (cache Demo.stale) ≠ ∅).
  { intros Heq. apply (f_equal (fun m => m !! "k1")) in Heq.
    vm_compute in Heq. discriminate. }
  split; [exact H|].
  exact (proj1 (proj2 (proj2 (proj2
           (ParseAndVerify_effects Demo.externals Demo.clock Demo.verifier
              Demo.valid_token Demo.stale)))) H).
Defined.

Lemma ParseAndVerify_fresh_cache_witness :
  now_at_lookup Demo.clock Demo.at_deadline <= keyExpire (cache Demo.at_deadline)
  ∧ cache (snd (ParseAndVerify Demo.externals Demo.clock Demo.verifier
                  Demo.valid_token Demo.at_deadline)) = cache Demo.at_deadline
  ∧ fetch_calls (snd (ParseAndVerify Demo.externals Demo.clock Demo.verifier
                        Demo.valid_token Demo.at_deadline))
    = fetch_calls Demo.at_deadline.
Proof.
  assert (H : now_at_lookup Demo.clock Demo.at_deadline
              <= keyExpire (cache Demo.at_deadline)).
  { vm_compute. discriminate. }
  split; [exact H|].
  exact (ParseAndVerify_fresh_cache Demo.externals Demo.clock Demo.verifier
           Demo.valid_token Demo.at_deadline H).
Defined.

Lemma NewVerifier_first_fetch_witness :
  zeroTime < Demo.clock 0
  ∧ fetch_calls (snd (NewVerifier Demo.externals Demo.clock Demo.fetch_fails
                        "client-123" Demo.fresh)) = 1%nat
  ∧ fetch_calls (snd (NewVerifier Demo.externals Demo.clock
                        (Demo.fetch "J2" (Demo.seconds 9000))
                        "client-123" Demo.fresh)) = 1%nat.
Proof.
  assert (H : zeroTime < Demo.clock 0) by (vm_compute; reflexivity).
  split; [exact H|]. split.
  - exact (proj1 (NewVerifier_first_fetch Demo.externals Demo.clock
                    Demo.fetch_fails "client-123" Demo.fresh H)).
  - exact (proj1 (NewVerifier_first_fetch Demo.externals Demo.clock
                    (Demo.fetch "J2" (Demo.seconds 9000)) "client-123"
                    Demo.fresh H)).
Defined.

Lemma retrieveKey_again_witness :
  let st1 := snd (retrieveKey Demo.externals Demo.clock "k2" Demo.stale) in
  retrieveKey Demo.externals Demo.clock "k2" Demo.stale
  = ((Some {| pk_N := 13940693; pk_E := 65537 |}, None), st1)
  ∧ now_at_lookup Demo.clock st1 <= keyExpire (cache st1)
  ∧ fst (retrieveKey Demo.externals Demo.clock "k2" st1)
    = (Some {| pk_N := 13940693; pk_E := 65537 |}, None).
Proof.
  intros st1.
  assert (H1 : retrieveKey Demo.externals Demo.clock "k2" Demo.stale
               = ((Some {| pk_N := 13940693; pk_E := 65537 |}, None), st1))
    by (vm_compute; reflexivity).
  assert (H2 : now_at_lookup Demo.clock st1 <= keyExpire (cache st1))
    by (vm_compute; discriminate).
  split; [exact H1|]. split; [exact H2|].
  exact (proj2 (retrieveKey_again Demo.externals Demo.clock "k2" "k2" Demo.stale
                  _ st1 H1 H2)).
Defined.

Lemma demo_J2_complete :
  Forall complete_entry [Demo.entry "u1SU" "AQAB" "k1"; Demo.entry "1LfV" "AQAB" "k2"].
Proof.
  repeat constructor; simpl; try discriminate; eexists; vm_compute; reflexivity.
Defined.

Lemma retrieveKey_refresh_replaces_witness :
  publicKeys (cache Demo2.rotated) !! "k7" = Some Demo.key1
  ∧ ∃ k st',
      retrieveKey Demo2.externals Demo.clock "k7" Demo2.rotated = ((k, None), st')
      ∧ dom (publicKeys (cache st')) = {[ "k1"; "k2" ]}
      ∧ ¬ is_Some k.
Proof.
  split; [reflexivity|].
  destruct (retrieveKey_refresh_replaces Demo2.externals Demo.clock "k7"
              Demo2.rotated "J2" (Demo.seconds 9000)
              [Demo.entry "u1SU" "AQAB" "k1"; Demo.entry "1LfV" "AQAB" "k2"])
    as (k & st' & Hret & Hdom & _ & Hk).
  - vm_compute. reflexivity.
  - reflexivity.
  - reflexivity.
  - discriminate.
  - exact demo_J2_complete.
  - exists k, st'. split; [exact Hret|]. split.
    + rewrite Hdom. simpl. set_solver.
    + intros Hsome. apply Hk in Hsome. simpl in Hsome. set_solver.
Defined.

Lemma UpdatePublicKey_accepts_only_complete_witness :
  ∃ st', UpdatePublicKey Demo.externals "J2" (Demo.seconds 9000) Demo.stale
         = (None, st')
       ∧ keyExpire (cache st') = Demo.seconds 9000.
Proof.
  eexists. split; [vm_compute; reflexivity|].
  destruct (UpdatePublicKey_accepts_only_complete Demo.externals "J2"
              (Demo.seconds 9000) Demo.stale _ eq_refl)
    as (entries & _ & _ & _ & _ & Hexp & _).
  exact Hexp.
Defined.

Lemma UpdatePublicKey_last_entry_wins_witness :
  ∃ st', UpdatePublicKey Demo2.externals "Jdup" (Demo.seconds 9000) Demo.stale
         = (None, st')
       ∧ publicKeys (cache st') !! "k1"
         = Some {| pk_N := 13940693; pk_E := 65537 |}.
Proof.
  eexists. split; [vm_compute; reflexivity|].
  destruct (UpdatePublicKey_last_entry_wins Demo2.externals "Jdup"
              (Demo.seconds 9000) Demo.stale _
              [Demo.entry "u1SU" "AQAB" "k1"] (Demo.entry "1LfV" "AQAB" "k1") []
              eq_refl eq_refl ltac:(constructor))
    as (bn & be & Hn & He & Hlook).
  vm_compute in Hn, He. injection Hn as <-. injection He as <-.
  exact Hlook.
Defined.

Lemma decode_jwk_key_bounds_witness :
  decode_jwk (Demo.entry "u1SU" "AQAB" "k1") = inr Demo.key1
  ∧ 0 <= pk_N Demo.key1 ∧ - 2 ^ 63 <= pk_E Demo.key1 < 2 ^ 63.
Proof.
  assert (H : decode_jwk (Demo.entry "u1SU" "AQAB" "k1") = inr Demo.key1)
    by reflexivity.
  split; [exact H|].
  destruct (decode_jwk_key_bounds _ _ H) as (HN & HE & _).
  split; [exact HN|exact HE].
Defined.

Lemma extractMaxAge_first_directive_witness :
  extractMaxAge "public, max-age=22572=1, must-revalidate" = Returns 22572
  ∧ extractMaxAge "max-age-soft=a, max-age=5" = Fails (ErrConvertMaxAge "a").
Proof.
  split.
  - apply (extractMaxAge_first_directive "public, max-age=22572=1, must-revalidate"
             ["public"] "max-age" "22572" "=1" ["must-revalidate"]);
      try reflexivity.
    + repeat constructor.
    + right. exists "1". reflexivity.
  - apply (extractMaxAge_first_directive "max-age-soft=a, max-age=5"
             [] "max-age-soft" "a" "" ["max-age=5"]);
      try reflexivity.
    + constructor.
    + left. reflexivity.
Defined.

Lemma extractMaxAge_panics_witness : extractMaxAge "public, max-age" = Panics.
Proof.
  apply (extractMaxAge_panics "public, max-age" ["public"] "max-age" []);
    try reflexivity.
  repeat constructor.
Defined.

Lemma extractMaxAge_not_found_iff_witness :
  extractMaxAge "no-store, private"
  = Fails (ErrMaxAgeNotFound "no-store, private").
Proof.
  apply (proj2 (extractMaxAge_not_found_iff "no-store, private")).
  repeat constructor.
Defined.

Lemma extractMaxAge_decimal_witness :
  extractMaxAge "public, max-age=22572, must-revalidate, no-transform"
  = Returns 22572.
Proof.
  apply (extractMaxAge_decimal "public" "22572" 22572
           "must-revalidate, no-transform").
  - reflexivity.
  - reflexivity.
  - split; [discriminate|]. eexists. reflexivity.
  - reflexivity.
  - reflexivity.
Defined.

Lemma ParseAndVerify_twice_witness :
  (∀ n, Demo.clock n = Demo.seconds 1500)
  ∧ Demo.seconds 1500 <= keyExpire (cache Demo.fresh)
  ∧ fst (ParseAndVerify Demo.externals Demo.clock Demo.verifier Demo.valid_token
           (snd (ParseAndVerify Demo.externals Demo.clock Demo.verifier
                   Demo.wrong_issuer Demo.fresh)))
    = fst (ParseAndVerify Demo.externals Demo.clock Demo.verifier
             Demo.valid_token Demo.fresh).
Proof.
  assert (H1 : ∀ n, Demo.clock n = Demo.seconds 1500) by reflexivity.
  assert (H2 : Demo.seconds 1500 <= keyExpire (cache Demo.fresh))
    by (vm_compute; discriminate).
  split; [exact H1|]. split; [exact H2|].
  exact (ParseAndVerify_twice Demo.externals Demo.clock Demo.verifier
           Demo.valid_token Demo.wrong_issuer Demo.fresh (Demo.seconds 1500)
           H1 H2).
Defined.

Lemma retrieveKey_retries_after_failure_witness :
  refresh_fails Demo.externals Demo.clock Demo.stale_fetch_fails
  ∧ fetch_calls (snd (retrieveKey Demo.externals Demo.clock "k1"
                        (snd (retrieveKey Demo.externals Demo.clock "k1"
                                Demo.stale_fetch_fails)))) = 2%nat.
Proof.
  assert (Hfails : refresh_fails Demo.externals Demo.clock Demo.stale_fetch_fails).
  { split; [reflexivity|].
    exists "", zeroTime, (Some (ErrFetcher "request - timeout")).
    split; [reflexivity|]. left. discriminate. }
  split; [exact Hfails|].
  apply (retrieveKey_retries_after_failure Demo.externals Demo.clock "k1" "k1"
           Demo.stale_fetch_fails Hfails).
  vm_compute. discriminate.
Defined.
